(** * reverse_exporter: configuration binding and subprocess proxies

    A shallow embedding of [metricproxy/interface.go] (endpoint
    construction) and of the exec proxies ([execProxy], the coalescing
    on-demand proxy, and [execCachingProxy], the periodic caching proxy),
    with the properties of the design document proved or refuted over it. *)

From stdpp Require Import base decidable option list sets gmap strings relations.

Set Default Proof Using "Type".
Local Open Scope string_scope.
Local Open Scope list_scope.
Local Open Scope nat_scope.

(** ** Go values shared by the packages *)

(** A Go [error] value that is not nil.  The package-level sentinels keep
    their names; [OSError] stands for whatever [os/exec], [os] or the
    exposition decoder hands back, told apart by its message. *)
Inductive error : Type :=
| ErrNameFieldOverrideAttempted
| ErrFileProxyScrapeError
| ErrUnknownExporterType
| ErrExporterNameUsedTwice
| ErrScrapeTimeoutBeforeExecFinished
| OSError (msg : string).

#[global] Instance error_eq_dec : EqDecision error.
Proof. solve_decision. Defined.

(** The text of [errors.New] for each sentinel, as [Error()] returns it. *)
Definition error_message (e : error) : string :=
  match e with
  | ErrNameFieldOverrideAttempted => "cannot override name field with additional labels"
  | ErrFileProxyScrapeError => "file proxy file read failed"
  | ErrUnknownExporterType => "cannot configure unknown exporter type"
  | ErrExporterNameUsedTwice => "cannot use the same exporter name twice for one endpoint"
  | ErrScrapeTimeoutBeforeExecFinished => "scrape timed out before exec finished"
  | OSError msg => msg
  end.

(** A value of interface type [error]: [None] is the nil interface. *)
Abbreviation goerror := (option error).

(** A decoded [*dto.MetricFamily], reduced to its name and its sample
    lines; the proxies never look inside. *)
Record MetricFamily : Type := mkFamily {
  family_name : string;
  family_samples : list string
}.

#[global] Instance MetricFamily_eq_dec : EqDecision MetricFamily.
Proof. solve_decision. Defined.

(** A Go function body either returns or panics; where there is a
    world, the world at the panic is kept. *)
Inductive Outcome (A : Type) : Type :=
| Returned (a : A)
| Panicked (reason : string).
Arguments Returned {A} a.
Arguments Panicked {A} reason.

(** ** [metricproxy/interface.go]: building one endpoint *)
Module MetricProxy.

(** Modelled from the spec: the constant [reverseProxyNameLabel] is
    declared outside the files at hand; the design document gives its
    value, [exported_instance]. *)
Definition reverseProxyNameLabel : string := "exported_instance".

(** The dynamic type of a value that implements [config.BaseExporter],
    as the type switch of [NewMetricReverseProxy] tells them apart. *)
Inductive ExporterType : Type :=
| FileExporterConfig
| ExecExporterConfig
| ExecCachingExporterConfig
| HTTPExporterConfig
| OtherExporterConfig.

(** What [GetBaseExporter] returns.  [Labels] is a Go map: the list
    holds its entries in the order the [range] statement happens to
    visit them, so a statement over every list covers every iteration
    order. *)
Record BaseExporter : Type := mkBase {
  Name : string;
  NoRewrite : bool;
  Labels : list (string * string)
}.

(** A value whose dynamic type implements [config.BaseExporter]. *)
Record Exporter : Type := mkExporter {
  exporterType : ExporterType;
  GetBaseExporter : BaseExporter
}.

(** One item of [exporter.Exporters], a Go interface value: a value
    that implements [config.BaseExporter], or anything else, the nil
    interface included. *)
Inductive Item : Type :=
| BaseExporterItem (e : Exporter)
| OtherItem.

Inductive AuthType : Type :=
| AuthTypeNone
| AuthTypeBasic
| AuthTypeOther (name : string).

(** [config.ReverseExporter]. *)
Record ReverseExporter : Type := mkReverseExporter {
  Path : string;
  Exporters : list Item;
  authType : AuthType;
  HtPasswdFile : string
}.

(** The proxy built for one backend by the type switch. *)
Inductive MetricProxy : Type :=
| fileProxy
| execProxy
| execCachingProxy
| netProxy.

(** [rewriteProxy]: the label-rewriting shim in front of a backend. *)
Record rewriteProxy : Type := mkRewrite {
  proxy : MetricProxy;
  labels : gmap string string
}.

(** [ReverseProxyEndpoint]; [basicAuth] records whether [handler] was
    wrapped by the htpasswd authenticator. *)
Record ReverseProxyEndpoint : Type := mkEndpoint {
  metricPath : string;
  backends : list rewriteProxy;
  basicAuth : bool
}.

(** The panic of the type assertion [exporter.(config.BaseExporter)],
    which has no comma-ok form, on an item outside the interface. *)
Definition interfaceConversion : string :=
  "interface conversion: interface is not config.BaseExporter".

(** The type switch: [None] is its [default] branch. *)
Definition newExporter (t : ExporterType) : option MetricProxy :=
  match t with
  | FileExporterConfig => Some fileProxy
  | ExecExporterConfig => Some execProxy
  | ExecCachingExporterConfig => Some execCachingProxy
  | HTTPExporterConfig => Some netProxy
  | OtherExporterConfig => None
  end.

(** The loop over [baseExporter.Labels]. *)
Fixpoint setAdditionalLabels (ls : list (string * string))
    (acc : gmap string string) : error + gmap string string :=
  match ls with
  | [] => inr acc
  | (k, v) :: rest =>
      if decide (k = reverseProxyNameLabel)
      then inl ErrNameFieldOverrideAttempted
      else setAdditionalLabels rest (<[k := v]> acc)
  end.

(** One turn of the loop over [exporter.Exporters]: the type assertion,
    the type switch, the name bookkeeping, the name label, the
    additional labels.  The turn panics, returns from
    [NewMetricReverseProxy] with an error, or goes on with the names
    used so far and the new shim. *)
Definition addBackend (exporter : Item) (usedNames : gset string)
    : Outcome (error + (gset string * rewriteProxy)) :=
  match exporter with
  | OtherItem => Panicked interfaceConversion
  | BaseExporterItem e =>
      let baseExporter := GetBaseExporter e in
      match newExporter (exporterType e) with
      | None => Returned (inl ErrUnknownExporterType)
      | Some p =>
          if decide (Name baseExporter ∈ usedNames)
          then Returned (inl ErrExporterNameUsedTwice)
          else
            let usedNames' := {[ Name baseExporter ]} ∪ usedNames in
            let labels0 : gmap string string :=
              if NoRewrite baseExporter then ∅
              else {[ reverseProxyNameLabel := Name baseExporter ]} in
            match setAdditionalLabels (Labels baseExporter) labels0 with
            | inl err => Returned (inl err)
            | inr ls => Returned (inr (usedNames', mkRewrite p ls))
            end
      end
  end.

Fixpoint addBackends (es : list Item) (usedNames : gset string)
    (acc : list rewriteProxy) : Outcome (error + list rewriteProxy) :=
  match es with
  | [] => Returned (inr acc)
  | e :: rest =>
      match addBackend e usedNames with
      | Panicked reason => Panicked reason
      | Returned (inl err) => Returned (inl err)
      | Returned (inr (usedNames', rp)) =>
          addBackends rest usedNames' (acc ++ [rp])
      end
  end.

(** [NewMetricReverseProxy]: the pair [(http.Handler, error)] it
    returns, or its panic. *)
Definition NewMetricReverseProxy (exporter : ReverseExporter)
    : Outcome (option ReverseProxyEndpoint * goerror) :=
  match addBackends (Exporters exporter) ∅ [] with
  | Panicked reason => Panicked reason
  | Returned (inl err) => Returned (None, Some err)
  | Returned (inr bs) =>
      let wrapped :=
        match authType exporter with
        | AuthTypeBasic => true
        | AuthTypeNone | AuthTypeOther _ => false
        end in
      Returned (Some (mkEndpoint (Path exporter) bs wrapped), None)
  end.

(** A backend carries the reserved key among its additional labels. *)
Definition overridesName (e : Exporter) : Prop :=
  reverseProxyNameLabel ∈ (Labels (GetBaseExporter e)).*1.

Definition knownType (e : Exporter) : Prop :=
  is_Some (newExporter (exporterType e)).

Definition exporterNames (es : list Exporter) : list string :=
  (λ e, Name (GetBaseExporter e)) <$> es.

Definition ConfigError (err : error) : Prop :=
  err = ErrNameFieldOverrideAttempted ∨ err = ErrUnknownExporterType
  ∨ err = ErrExporterNameUsedTwice.

(** The backends among the items: the items that implement
    [config.BaseExporter], in order. *)
Definition asBaseExporter (it : Item) : option Exporter :=
  match it with
  | BaseExporterItem e => Some e
  | OtherItem => None
  end.

Definition baseExporters (items : list Item) : list Exporter :=
  omap asBaseExporter items.

(** A backend passes the type switch and the label loop. *)
Definition passes (e : Exporter) : Prop := knownType e ∧ ¬ overridesName e.

(** An item at which the loop stops, given the names [seen] before
    it. *)
Definition fails (seen : list string) (it : Item) : Prop :=
  match it with
  | OtherItem => True
  | BaseExporterItem e =>
      ¬ knownType e ∨ Name (GetBaseExporter e) ∈ seen ∨ overridesName e
  end.

(** *** Facts about the label loop *)

Lemma setAdditionalLabels_reserved ls acc :
  reverseProxyNameLabel ∈ ls.*1 →
  setAdditionalLabels ls acc = inl ErrNameFieldOverrideAttempted.
Proof.
  revert acc. induction ls as [|[k v] ls IH]; intros acc Hin; simpl in *.
  - by apply elem_of_nil in Hin.
  - case_decide as Hk; [done|].
    apply IH. apply elem_of_cons in Hin as [Heq|Hin]; [by subst|done].
Qed.

Lemma setAdditionalLabels_clean ls acc :
  reverseProxyNameLabel ∉ ls.*1 →
  ∃ m, setAdditionalLabels ls acc = inr m.
Proof.
  revert acc. induction ls as [|[k v] ls IH]; intros acc Hnin; simpl in *.
  - by eexists.
  - apply not_elem_of_cons in Hnin as [Hne Hnin].
    case_decide; [congruence|]. by apply IH.
Qed.

Lemma setAdditionalLabels_error ls acc err :
  setAdditionalLabels ls acc = inl err → err = ErrNameFieldOverrideAttempted.
Proof.
  revert acc. induction ls as [|[k v] ls IH]; intros acc; simpl; [done|].
  case_decide; [congruence|]. apply IH.
Qed.

#[global] Instance overridesName_dec e : Decision (overridesName e).
Proof. unfold overridesName. apply _. Defined.

#[global] Instance knownType_dec e : Decision (knownType e).
Proof. unfold knownType. apply _. Defined.

#[global] Instance passes_dec e : Decision (passes e).
Proof. unfold passes. apply _. Defined.

#[global] Instance fails_dec seen it : Decision (fails seen it).
Proof. destruct it; simpl; apply _. Defined.

(** *** Facts about one turn of the backend loop *)

#[local] Arguments addBackend : simpl never.

Lemma addBackend_error it used err :
  addBackend it used = Returned (inl err) → ConfigError err.
Proof.
  unfold addBackend, ConfigError. destruct it as [e|]; [|done].
  destruct (newExporter _); [|naive_solver].
  case_decide; [naive_solver|].
  destruct (setAdditionalLabels _ _) eqn:Hl; [|done].
  intros [= <-]. apply setAdditionalLabels_error in Hl. auto.
Qed.

Lemma addBackend_ok it used used' rp :
  addBackend it used = Returned (inr (used', rp)) →
  ∃ e, it = BaseExporterItem e
       ∧ knownType e ∧ (Name (GetBaseExporter e) ∉ used) ∧ (¬ overridesName e)
       ∧ used' = {[ Name (GetBaseExporter e) ]} ∪ used.
Proof.
  unfold addBackend, knownType, overridesName. destruct it as [e|]; [|done].
  destruct (newExporter _) eqn:Hp; [|done].
  case_decide as Hused; [done|].
  destruct (setAdditionalLabels _ _) eqn:Hl; [done|].
  intros [= <- <-]. exists e. repeat split; eauto.
  intros Hin. eapply setAdditionalLabels_reserved in Hin.
  rewrite Hin in Hl. discriminate.
Qed.

Lemma addBackend_panic it used reason :
  addBackend it used = Panicked reason →
  it = OtherItem ∧ reason = interfaceConversion.
Proof.
  unfold addBackend. destruct it as [e|]; [|by intros [= <-]].
  destruct (newExporter _); [|done]. case_decide; [done|].
  by destruct (setAdditionalLabels _ _).
Qed.

Lemma addBackend_unknown e used :
  ¬ knownType e →
  addBackend (BaseExporterItem e) used = Returned (inl ErrUnknownExporterType).
Proof.
  intros Hk. unfold addBackend.
  destruct (newExporter (exporterType e)) as [p|] eqn:Hp; [|done].
  exfalso. apply Hk. by exists p.
Qed.

Lemma addBackend_reserved e used :
  knownType e → Name (GetBaseExporter e) ∉ used → overridesName e →
  addBackend (BaseExporterItem e) used
  = Returned (inl ErrNameFieldOverrideAttempted).
Proof.
  intros [p Hp] Hused Hov. unfold addBackend. rewrite Hp.
  case_decide; [done|]. by rewrite setAdditionalLabels_reserved.
Qed.

Lemma addBackend_duplicate e used :
  knownType e → Name (GetBaseExporter e) ∈ used →
  addBackend (BaseExporterItem e) used = Returned (inl ErrExporterNameUsedTwice).
Proof.
  intros [p Hp] Hused. unfold addBackend. rewrite Hp. by case_decide.
Qed.

Lemma addBackend_fresh e used :
  knownType e → Name (GetBaseExporter e) ∉ used → ¬ overridesName e →
  ∃ rp, addBackend (BaseExporterItem e) used
        = Returned (inr ({[ Name (GetBaseExporter e) ]} ∪ used, rp)).
Proof.
  intros [p Hp] Hused Hov. unfold addBackend. rewrite Hp.
  case_decide; [done|].
  destruct (setAdditionalLabels_clean (Labels (GetBaseExporter e))
              (if NoRewrite (GetBaseExporter e) then ∅
               else {[reverseProxyNameLabel := Name (GetBaseExporter e)]}) Hov)
    as [m ->].
  by eexists.
Qed.

(** *** Facts about the whole loop *)

Lemma baseExporters_fmap es : baseExporters (BaseExporterItem <$> es) = es.
Proof.
  induction es as [|e es IH]; [done|].
  unfold baseExporters in *. rewrite fmap_cons.
  change (e :: omap asBaseExporter (BaseExporterItem <$> es) = e :: es).
  by rewrite IH.
Qed.

Lemma baseExporters_app l1 l2 :
  baseExporters (l1 ++ l2) = baseExporters l1 ++ baseExporters l2.
Proof. apply omap_app. Qed.

Lemma addBackends_cons it rest used acc :
  addBackends (it :: rest) used acc
  = match addBackend it used with
    | Panicked reason => Panicked reason
    | Returned (inl err) => Returned (inl err)
    | Returned (inr (used', rp)) => addBackends rest used' (acc ++ [rp])
    end.
Proof. done. Qed.

Lemma addBackends_error es used acc err :
  addBackends es used acc = Returned (inl err) → ConfigError err.
Proof.
  revert used acc. induction es as [|e es IH]; intros used acc; simpl; [done|].
  destruct (addBackend e used) as [[err'|[used' rp]]|reason] eqn:He; [| |done].
  - intros [= <-]. by eapply addBackend_error.
  - apply IH.
Qed.

Lemma addBackends_panic es used acc reason :
  addBackends es used acc = Panicked reason → reason = interfaceConversion.
Proof.
  revert used acc. induction es as [|e es IH]; intros used acc; simpl; [done|].
  destruct (addBackend e used) as [[err'|[used' rp]]|reason'] eqn:He; [done| |].
  - apply IH.
  - intros [= <-]. by apply addBackend_panic in He as [_ ->].
Qed.

(** A successful run has seen backends only, with pairwise distinct
    names, none of them used before, each of which passes, and has
    appended one shim per item. *)
Lemma addBackends_ok items used acc bs :
  addBackends items used acc = Returned (inr bs) →
  ∃ es, items = BaseExporterItem <$> es
        ∧ Forall passes es
        ∧ NoDup (exporterNames es)
        ∧ (∀ n, n ∈ exporterNames es → n ∉ used)
        ∧ length bs = length acc + length items.
Proof.
  revert used acc. induction items as [|it items IH]; intros used acc; simpl.
  - intros [= <-]. exists []. repeat split; try constructor; [|lia].
    intros n Hn. by apply elem_of_nil in Hn.
  - destruct (addBackend it used) as [[err'|[used' rp]]|reason] eqn:He;
      [done| |done].
    intros Hrun. apply addBackend_ok in He as (e & -> & Hk & Hfresh & Hc & Hused).
    subst used'. apply IH in Hrun as (es & -> & Hp & Hnd & Hout & Hlen).
    exists (e :: es). split; [done|]. split; [by constructor|].
    split; [|split].
    + simpl. constructor; [|done]. intros Hin. apply Hout in Hin. set_solver.
    + intros n Hn. simpl in Hn. apply elem_of_cons in Hn as [Hn|Hin]; [by subst n|].
      apply Hout in Hin. set_solver.
    + rewrite Hlen, length_app. simpl. lia.
Qed.

(** The loop over backends that pass, without a repeated name, goes on
    with the rest, all their names remembered. *)
Lemma addBackends_good_prefix pre rest used acc :
  Forall passes pre → NoDup (exporterNames pre) →
  (∀ n, n ∈ exporterNames pre → n ∉ used) →
  ∃ acc', addBackends ((BaseExporterItem <$> pre) ++ rest) used acc
          = addBackends rest (list_to_set (exporterNames pre) ∪ used) acc'.
Proof.
  revert used acc. induction pre as [|e pre IH]; intros used acc Hp Hnd Hout.
  - exists acc. simpl. f_equal. set_solver.
  - rewrite fmap_cons, <- app_comm_cons, addBackends_cons.
    apply Forall_cons in Hp as [[Hk Hc] Hp]. simpl in Hnd.
    apply NoDup_cons in Hnd as [Hn Hnd].
    assert (Name (GetBaseExporter e) ∉ used) as Hfresh.
    { apply Hout. simpl. apply list_elem_of_here. }
    destruct (addBackend_fresh e used Hk Hfresh Hc) as [rp ->].
    destruct (IH ({[Name (GetBaseExporter e)]} ∪ used) (acc ++ [rp]) Hp Hnd)
      as [acc' Hgo].
    + intros n Hin. apply not_elem_of_union. split.
      * intros ->%elem_of_singleton. done.
      * apply Hout. simpl. by apply list_elem_of_further.
    + exists acc'. rewrite Hgo. f_equal. set_solver.
Qed.

Lemma addBackends_good es used acc :
  Forall passes es → NoDup (exporterNames es) →
  (∀ n, n ∈ exporterNames es → n ∉ used) →
  ∃ bs, addBackends (BaseExporterItem <$> es) used acc = Returned (inr bs).
Proof.
  intros Hp Hnd Hout.
  destruct (addBackends_good_prefix es [] used acc Hp Hnd Hout) as [acc' Hgo].
  rewrite app_nil_r in Hgo. rewrite Hgo. by eexists.
Qed.

(** The loop over backends of known types without reserved labels
    either stops on a repeated name or remembers every name. *)
Lemma addBackends_prefix pre rest used acc :
  Forall knownType pre → Forall (λ e, ¬ overridesName e) pre →
  addBackends ((BaseExporterItem <$> pre) ++ rest) used acc
  = Returned (inl ErrExporterNameUsedTwice)
  ∨ ∃ acc', addBackends ((BaseExporterItem <$> pre) ++ rest) used acc
            = addBackends rest (list_to_set (exporterNames pre) ∪ used) acc'.
Proof.
  revert used acc. induction pre as [|e pre IH]; intros used acc Hk Hc.
  - right. exists acc. simpl. f_equal. set_solver.
  - rewrite fmap_cons, <- app_comm_cons, addBackends_cons.
    apply Forall_cons in Hk as [Hke Hk]. apply Forall_cons in Hc as [Hce Hc].
    destruct (decide (Name (GetBaseExporter e) ∈ used)) as [Hin|Hnin].
    + left. by rewrite addBackend_duplicate.
    + destruct (addBackend_fresh e used Hke Hnin Hce) as [rp ->].
      destruct (IH ({[Name (GetBaseExporter e)]} ∪ used) (acc ++ [rp]) Hk Hc)
        as [Hdup|[acc' Hgo]]; [by left|].
      right. exists acc'. rewrite Hgo. f_equal. set_solver.
Qed.

(** Every list of items is made of backends that pass, with distinct
    names, or has a first item at which the loop stops. *)
Lemma first_failure (items : list Item) :
  (∃ es, items = BaseExporterItem <$> es
         ∧ Forall passes es ∧ NoDup (exporterNames es))
  ∨ (∃ pre it post,
       items = (BaseExporterItem <$> pre) ++ it :: post
       ∧ Forall passes pre ∧ NoDup (exporterNames pre)
       ∧ fails (exporterNames pre) it).
Proof.
  induction items as [|it items IH] using rev_ind.
  - left. exists []. repeat split; constructor.
  - destruct IH as [(es & -> & Hp & Hnd)|(pre & it0 & post & -> & Hp & Hnd & Hf)].
    + destruct (decide (fails (exporterNames es) it)) as [Hf|Hok].
      * right. by exists es, it, [].
      * left. destruct it as [e|]; [|by destruct Hok].
        simpl in Hok. exists (es ++ [e]). rewrite fmap_app. split; [done|].
        split.
        -- apply Forall_app. split; [done|]. constructor; [|done].
           split; [|tauto]. destruct (decide (knownType e)); tauto.
        -- unfold exporterNames. rewrite fmap_app. apply NoDup_app.
           split; [done|]. split; [|apply NoDup_singleton].
           intros n Hn Hn'. apply list_elem_of_singleton in Hn'. subst n.
           apply Hok. right. left. exact Hn.
    + right. exists pre, it0, (post ++ [it]). by rewrite <- app_assoc.
Qed.

(** Where the loop stops, and with what: at the first such item, with
    the panic of the type assertion, or with the error of the first
    check, in program order, that the item fails. *)
Lemma addBackends_stops pre it post acc :
  Forall passes pre → NoDup (exporterNames pre) → fails (exporterNames pre) it →
  addBackends ((BaseExporterItem <$> pre) ++ it :: post) ∅ acc
  = match it with
    | OtherItem => Panicked interfaceConversion
    | BaseExporterItem e =>
        Returned (inl (if decide (knownType e) then
                         if decide (Name (GetBaseExporter e) ∈ exporterNames pre)
                         then ErrExporterNameUsedTwice
                         else ErrNameFieldOverrideAttempted
                       else ErrUnknownExporterType))
    end.
Proof.
  intros Hp Hnd Hf.
  destruct (addBackends_good_prefix pre (it :: post) ∅ acc Hp Hnd) as [acc' ->].
  { intros n _. apply not_elem_of_empty. }
  destruct it as [e|]; [|done]. simpl in *.
  destruct (decide (knownType e)) as [Hk|Hk].
  - destruct (decide (Name (GetBaseExporter e) ∈ exporterNames pre)) as [Hin|Hnin].
    + rewrite addBackend_duplicate; [done..|]. set_solver.
    + rewrite addBackend_reserved; [done..| |tauto]. set_solver.
  - by rewrite addBackend_unknown.
Qed.

(** The same for [NewMetricReverseProxy], case by case. *)
Lemma NewMetricReverseProxy_stops cfg pre it post :
  Exporters cfg = (BaseExporterItem <$> pre) ++ it :: post →
  Forall passes pre → NoDup (exporterNames pre) → fails (exporterNames pre) it →
  match it with
  | OtherItem => NewMetricReverseProxy cfg = Panicked interfaceConversion
  | BaseExporterItem e =>
      (¬ knownType e
       ∧ NewMetricReverseProxy cfg = Returned (None, Some ErrUnknownExporterType))
      ∨ (knownType e ∧ Name (GetBaseExporter e) ∈ exporterNames pre
         ∧ NewMetricReverseProxy cfg
           = Returned (None, Some ErrExporterNameUsedTwice))
      ∨ (knownType e ∧ (Name (GetBaseExporter e) ∉ exporterNames pre)
         ∧ overridesName e
         ∧ NewMetricReverseProxy cfg
           = Returned (None, Some ErrNameFieldOverrideAttempted))
  end.
Proof.
  intros Hcfg Hp Hnd Hf. unfold NewMetricReverseProxy.
  rewrite Hcfg, (addBackends_stops pre it post [] Hp Hnd Hf).
  destruct it as [e|]; [|done]. simpl in Hf.
  destruct (decide (knownType e)) as [Hk|Hk]; [|by left].
  destruct (decide (Name (GetBaseExporter e) ∈ exporterNames pre)) as [Hin|Hnin].
  - right. by left.
  - right. right. split; [done|]. split; [done|]. split; [tauto|done].
Qed.

(** A configuration whose loop stops returns no handler. *)
Lemma NewMetricReverseProxy_no_handler cfg :
  (¬ ∃ es, Exporters cfg = BaseExporterItem <$> es
           ∧ Forall passes es ∧ NoDup (exporterNames es)) →
  ∀ h err, NewMetricReverseProxy cfg ≠ Returned (Some h, err).
Proof.
  intros Hbad h err. unfold NewMetricReverseProxy.
  destruct (addBackends (Exporters cfg) ∅ []) as [[err'|bs]|reason] eqn:Hrun;
    [done| |done].
  apply addBackends_ok in Hrun as (es & Hes & Hp & Hnd & _).
  exfalso. apply Hbad. by exists es.
Qed.

(** With distinct names and known types, the loop reaches the first
    backend that carries the reserved key and stops there. *)
Lemma addBackends_reserved pre e post used acc :
  overridesName e → Forall knownType (pre ++ [e]) →
  NoDup (exporterNames (pre ++ [e])) →
  (∀ n, n ∈ exporterNames (pre ++ [e]) → n ∉ used) →
  addBackends ((BaseExporterItem <$> pre) ++ BaseExporterItem e :: post) used acc
  = Returned (inl ErrNameFieldOverrideAttempted).
Proof.
  revert used acc. induction pre as [|e0 pre IH]; intros used acc Hov Hk Hnd Hout.
  - simpl in *. apply Forall_cons in Hk as [Hke _].
    rewrite addBackend_reserved; [done..| |done].
    apply Hout. set_solver.
  - rewrite fmap_cons, <- app_comm_cons, addBackends_cons. simpl in *.
    apply Forall_cons in Hk as [Hk0 Hk]. apply NoDup_cons in Hnd as [Hn0 Hnd].
    assert (Name (GetBaseExporter e0) ∉ used) as Hfresh by (apply Hout; set_solver).
    destruct (decide (overridesName e0)) as [Hov0|Hov0].
    + by rewrite addBackend_reserved.
    + destruct (addBackend_fresh e0 used Hk0 Hfresh Hov0) as [rp ->].
      apply IH; [done..|].
      intros n Hn. assert (n ∉ used) by (apply Hout; set_solver).
      assert (n ≠ Name (GetBaseExporter e0)) by (intros ->; done).
      set_solver.
Qed.

(** Backends that pass with distinct names have no reserved key and no
    repeated name among them. *)
Lemma reserved_label_stops items :
  Exists overridesName (baseExporters items) →
  ¬ ∃ es, items = BaseExporterItem <$> es
          ∧ Forall passes es ∧ NoDup (exporterNames es).
Proof.
  intros Hex (es & -> & Hp & _). rewrite baseExporters_fmap in Hex.
  apply Exists_exists in Hex as (e & He & Hov).
  rewrite Forall_forall in Hp. by destruct (Hp e He).
Qed.

Lemma repeated_name_stops items :
  ¬ NoDup (exporterNames (baseExporters items)) →
  ¬ ∃ es, items = BaseExporterItem <$> es
          ∧ Forall passes es ∧ NoDup (exporterNames es).
Proof.
  intros Hdup (es & -> & _ & Hnd). by rewrite baseExporters_fmap in Hdup.
Qed.

(** *** Sample configurations *)

Definition backend_a : Exporter :=
  mkExporter HTTPExporterConfig (mkBase "a" false []).

Definition backend_a_reserved : Exporter :=
  mkExporter FileExporterConfig
    (mkBase "a" true [("region", "eu"); ("exported_instance", "x")]).

Definition backend_b_reserved : Exporter :=
  mkExporter ExecExporterConfig (mkBase "b" true [("exported_instance", "x")]).

Definition endpoint_of (es : list Exporter) : ReverseExporter :=
  mkReverseExporter "/metrics" (BaseExporterItem <$> es) AuthTypeNone
    "/etc/htpasswd".

(** *** The reserved label (C7) *)

(** C7, as stated, fails: an endpoint whose second backend repeats the
    name of the first and also carries the reserved key is refused with
    [ErrExporterNameUsedTwice], raised by the name check that runs before
    the label loop. *)
Lemma reserved_label_error_not_always_override :
  ¬ (∀ cfg : ReverseExporter,
       Exists overridesName (baseExporters (Exporters cfg)) →
       NewMetricReverseProxy cfg
       = Returned (None, Some ErrNameFieldOverrideAttempted)).
Proof.
  intros Hall.
  specialize (Hall (endpoint_of [backend_a; backend_a_reserved])).
  assert (NewMetricReverseProxy (endpoint_of [backend_a; backend_a_reserved])
          = Returned (None, Some ErrExporterNameUsedTwice)) as Hrun
    by (vm_compute; done).
  rewrite Hrun in Hall.
  assert (Returned (None : option ReverseProxyEndpoint, Some ErrExporterNameUsedTwice)
          = Returned (None, Some ErrNameFieldOverrideAttempted)) as Habs;
    [|discriminate Habs].
  apply Hall. apply Exists_cons_tl, Exists_cons_hd.
  unfold overridesName. simpl. set_solver.
Qed.

(** C7, amended: when some backend of the endpoint carries the reserved
    key among its additional labels, [NewMetricReverseProxy] returns no
    handler, whatever [NoRewrite] says.  What it does instead is decided
    by the first item, in declaration order, at which the loop stops:
    every item before it is a backend that passes, the names before it
    are distinct, and
    - an item outside [config.BaseExporter] makes the call panic at the
      type assertion;
    - a backend of a type the switch does not know gives
      [ErrUnknownExporterType];
    - else a backend whose name was used before gives
      [ErrExporterNameUsedTwice];
    - else the backend carries the reserved key and the error is
      [ErrNameFieldOverrideAttempted].
    In particular the error is [ErrNameFieldOverrideAttempted] as soon
    as the items up to and including a backend with the reserved key are
    backends of known types with distinct names. *)
Theorem reserved_label_rejected (cfg : ReverseExporter) :
  Exists overridesName (baseExporters (Exporters cfg)) →
  (∀ h err, NewMetricReverseProxy cfg ≠ Returned (Some h, err))
  ∧ (∃ pre it post,
       Exporters cfg = (BaseExporterItem <$> pre) ++ it :: post
       ∧ Forall passes pre ∧ NoDup (exporterNames pre)
       ∧ match it with
         | OtherItem => NewMetricReverseProxy cfg = Panicked interfaceConversion
         | BaseExporterItem e =>
             (¬ knownType e
              ∧ NewMetricReverseProxy cfg
                = Returned (None, Some ErrUnknownExporterType))
             ∨ (knownType e ∧ Name (GetBaseExporter e) ∈ exporterNames pre
                ∧ NewMetricReverseProxy cfg
                  = Returned (None, Some ErrExporterNameUsedTwice))
             ∨ (knownType e ∧ (Name (GetBaseExporter e) ∉ exporterNames pre)
                ∧ overridesName e
                ∧ NewMetricReverseProxy cfg
                  = Returned (None, Some ErrNameFieldOverrideAttempted))
         end)
  ∧ (∀ pre e post,
       Exporters cfg = (BaseExporterItem <$> pre) ++ BaseExporterItem e :: post →
       overridesName e →
       Forall knownType (pre ++ [e]) → NoDup (exporterNames (pre ++ [e])) →
       NewMetricReverseProxy cfg
       = Returned (None, Some ErrNameFieldOverrideAttempted)).
Proof.
  intros Hex. apply reserved_label_stops in Hex. split; [|split].
  - by apply NewMetricReverseProxy_no_handler.
  - destruct (first_failure (Exporters cfg))
      as [Hgood|(pre & it & post & Hcfg & Hp & Hnd & Hf)]; [done|].
    exists pre, it, post. split; [done|]. split; [done|]. split; [done|].
    by apply (NewMetricReverseProxy_stops cfg pre it post).
  - intros pre e post Hcfg Hov Hk Hnd. unfold NewMetricReverseProxy.
    rewrite Hcfg, (addBackends_reserved pre e post ∅ []); [done..|].
    intros n _. set_solver.
Qed.

Lemma reserved_label_rejected_witness :
  NewMetricReverseProxy (endpoint_of [backend_a; backend_b_reserved])
  = Returned (None, Some ErrNameFieldOverrideAttempted).
Proof.
  refine (proj2 (proj2 (reserved_label_rejected
                   (endpoint_of [backend_a; backend_b_reserved]) _))
            [backend_a] backend_b_reserved [] eq_refl _ _ _).
  - apply Exists_cons_tl, Exists_cons_hd. unfold overridesName. simpl.
    apply list_elem_of_here.
  - unfold overridesName. simpl. apply list_elem_of_here.
  - repeat constructor; unfold knownType; simpl; eauto.
  - simpl. apply NoDup_cons. split; [|apply NoDup_singleton].
    intros Hin. apply list_elem_of_singleton in Hin. discriminate Hin.
Defined.

(** *** Backend names (C8) *)

(** C8, as stated, fails: an endpoint whose two backends share a name
    and whose first backend carries the reserved key is refused by the
    label loop of the first backend, with
    [ErrNameFieldOverrideAttempted], before the second name is looked at. *)
Lemma duplicate_name_error_not_always_used_twice :
  ¬ (∀ cfg : ReverseExporter,
       ¬ NoDup (exporterNames (baseExporters (Exporters cfg))) →
       NewMetricReverseProxy cfg = Returned (None, Some ErrExporterNameUsedTwice)).
Proof.
  intros Hall.
  specialize (Hall (endpoint_of [backend_a_reserved; backend_a])).
  assert (NewMetricReverseProxy (endpoint_of [backend_a_reserved; backend_a])
          = Returned (None, Some ErrNameFieldOverrideAttempted)) as Hrun
    by (vm_compute; done).
  rewrite Hrun in Hall.
  assert (Returned (None : option ReverseProxyEndpoint,
                    Some ErrNameFieldOverrideAttempted)
          = Returned (None, Some ErrExporterNameUsedTwice)) as Habs;
    [|discriminate Habs].
  apply Hall. intros Hnd. apply NoDup_cons in Hnd as [Hnin _].
  apply Hnin. simpl. apply list_elem_of_here.
Qed.

(** C8, amended: an endpoint in which two backends carry the same name
    is refused: [NewMetricReverseProxy] returns no handler.  What it
    does instead is decided by the first item, in declaration order, at
    which the loop stops: every item before it is a backend that passes,
    the names before it are distinct, and
    - an item outside [config.BaseExporter] makes the call panic at the
      type assertion;
    - a backend of a type the switch does not know gives
      [ErrUnknownExporterType];
    - else a backend whose name was used before gives
      [ErrExporterNameUsedTwice];
    - else the backend carries the reserved key and the error is
      [ErrNameFieldOverrideAttempted].
    In particular the error is [ErrExporterNameUsedTwice] as soon as the
    items up to the repeated one are backends of known types and those
    before it carry no reserved key.  Hence the backend names of every
    endpoint that is built are pairwise distinct. *)
Theorem duplicate_name_rejected (cfg : ReverseExporter) :
  (¬ NoDup (exporterNames (baseExporters (Exporters cfg))) →
   (∀ h err, NewMetricReverseProxy cfg ≠ Returned (Some h, err))
   ∧ ∃ pre it post,
       Exporters cfg = (BaseExporterItem <$> pre) ++ it :: post
       ∧ Forall passes pre ∧ NoDup (exporterNames pre)
       ∧ match it with
         | OtherItem => NewMetricReverseProxy cfg = Panicked interfaceConversion
         | BaseExporterItem e =>
             (¬ knownType e
              ∧ NewMetricReverseProxy cfg
                = Returned (None, Some ErrUnknownExporterType))
             ∨ (knownType e ∧ Name (GetBaseExporter e) ∈ exporterNames pre
                ∧ NewMetricReverseProxy cfg
                  = Returned (None, Some ErrExporterNameUsedTwice))
             ∨ (knownType e ∧ (Name (GetBaseExporter e) ∉ exporterNames pre)
                ∧ overridesName e
                ∧ NewMetricReverseProxy cfg
                  = Returned (None, Some ErrNameFieldOverrideAttempted))
         end)
  ∧ (∀ pre e1 mid e2 post,
       Exporters cfg
       = (BaseExporterItem <$> pre ++ e1 :: mid) ++ BaseExporterItem e2 :: post →
       Name (GetBaseExporter e1) = Name (GetBaseExporter e2) →
       Forall knownType (pre ++ e1 :: mid) → knownType e2 →
       Forall (λ e, ¬ overridesName e) (pre ++ e1 :: mid) →
       NewMetricReverseProxy cfg = Returned (None, Some ErrExporterNameUsedTwice))
  ∧ (∀ h, NewMetricReverseProxy cfg = Returned (Some h, None) →
       NoDup (exporterNames (baseExporters (Exporters cfg)))
       ∧ length (backends h) = length (Exporters cfg)).
Proof.
  split; [|split].
  - intros Hdup. apply repeated_name_stops in Hdup. split.
    + by apply NewMetricReverseProxy_no_handler.
    + destruct (first_failure (Exporters cfg))
        as [Hgood|(pre & it & post & Hcfg & Hp & Hnd & Hf)]; [done|].
      exists pre, it, post. split; [done|]. split; [done|]. split; [done|].
      by apply (NewMetricReverseProxy_stops cfg pre it post).
  - intros pre e1 mid e2 post Hcfg Hname Hk Hk2 Hclean.
    unfold NewMetricReverseProxy. rewrite Hcfg.
    destruct (addBackends_prefix (pre ++ e1 :: mid) (BaseExporterItem e2 :: post)
                ∅ [] Hk Hclean)
      as [Hdup|[acc' Hgo]]; [by rewrite Hdup|].
    rewrite Hgo, addBackends_cons, addBackend_duplicate; [done..|].
    rewrite <- Hname. apply elem_of_union_l, elem_of_list_to_set.
    unfold exporterNames. rewrite fmap_app, fmap_cons.
    apply elem_of_app. right. apply list_elem_of_here.
  - intros h. unfold NewMetricReverseProxy.
    destruct (addBackends _ _ _) as [[err|bs]|reason] eqn:Hrun; [done| |done].
    intros [= <-]. apply addBackends_ok in Hrun as (es & Hes & _ & Hnd & _ & Hlen).
    rewrite Hes at 1. rewrite baseExporters_fmap.
    split; [done|]. simpl in *. lia.
Qed.

Lemma duplicate_name_rejected_witness :
  NewMetricReverseProxy (endpoint_of [backend_a; backend_a; backend_b_reserved])
  = Returned (None, Some ErrExporterNameUsedTwice).
Proof.
  refine (proj1 (proj2 (duplicate_name_rejected
            (endpoint_of [backend_a; backend_a; backend_b_reserved])))
            [] backend_a [] backend_a [BaseExporterItem backend_b_reserved]
            eq_refl eq_refl _ _ _).
  - repeat constructor; unfold knownType; simpl; eauto.
  - unfold knownType; simpl; eauto.
  - repeat constructor. unfold overridesName. simpl. apply not_elem_of_nil.
Defined.

End MetricProxy.

(** ** Memory, log and subprocess: what one execution touches *)
Module Subprocess.

(** Family lists live in a heap; a location is an index into it. *)
Abbreviation loc := nat.

(** A Go slice of [*dto.MetricFamily]: the nil slice, the empty literal
    [[]*dto.MetricFamily{}] (or [make(.., 0)]), or a list allocated by
    the decoder. *)
Inductive slice : Type :=
| SliceNil
| SliceEmpty
| SliceAt (l : loc).

#[global] Instance slice_eq_dec : EqDecision slice.
Proof. solve_decision. Defined.

(** What the goroutine does to the outside, in program order. *)
Inductive Event : Type :=
| EvStdoutPipe
| EvStart
| EvDecode
| EvKill
| EvLock
| EvUnlock
| EvRLock
| EvRUnlock
| EvStore (s : slice)
| EvClose
| EvDebug (msg : string)
| EvError (errorField : string) (msg : string).

#[global] Instance Event_eq_dec : EqDecision Event.
Proof. solve_decision. Defined.

Record World : Type := mkWorld {
  heap : list (list MetricFamily);
  events : list Event
}.

Definition contents (w : World) (s : slice) : list MetricFamily :=
  match s with
  | SliceNil | SliceEmpty => []
  | SliceAt l => default [] (heap w !! l)
  end.

(** The body of a Go function that works on the world: it returns or
    panics, and the world at the panic is kept. *)
Definition M (A : Type) : Type := World → Outcome A * World.

#[global] Instance M_ret : MRet M := λ A a w, (Returned a, w).

#[global] Instance M_bind : MBind M := λ A B f m w,
  match m w with
  | (Returned a, w') => f a w'
  | (Panicked r, w') => (Panicked r, w')
  end.

Definition panic {A} (reason : string) : M A := λ w, (Panicked reason, w).

Definition emit (e : Event) : M unit :=
  λ w, (Returned (), mkWorld (heap w) (events w ++ [e])).

Definition alloc (fs : list MetricFamily) : M loc :=
  λ w, (Returned (length (heap w)), mkWorld (heap w ++ [fs]) (events w)).

(** The method call [e.Error()] on a value of interface type [error]:
    a nil interface has no method table to call through. *)
Definition Error (e : goerror) : M string :=
  match e with
  | Some err => mret (error_message err)
  | None => panic "invalid memory address or nil pointer dereference"
  end.

(** What the operating system and the script answer during one
    execution: the error of [StdoutPipe], of [Start], the families on
    standard output with the decoder's error, the error of [Kill]. *)
Record Execution : Type := mkExecution {
  pipeErr : goerror;
  startErr : goerror;
  decoded : list MetricFamily;
  decodeErr : goerror;
  killErr : goerror
}.

(** Modelled from the spec: [decodeMetrics] is declared outside the
    files at hand; it hands the script's output to the exposition decoder
    and yields the families in a list of its own, or the decoder's
    error. *)
Definition decodeMetrics (x : Execution) : M (slice * goerror) :=
  emit EvDecode ;;
  match decodeErr x with
  | Some derr => mret (SliceNil, Some derr)
  | None => l ← alloc (decoded x); mret (SliceAt l, None)
  end.

(** All four stages went through. *)
Definition succeeds (x : Execution) : Prop :=
  pipeErr x = None ∧ startErr x = None ∧ decodeErr x = None ∧ killErr x = None.

#[global] Instance succeeds_dec x : Decision (succeeds x).
Proof. unfold succeeds. apply _. Defined.

Definition good (fs : list MetricFamily) : Execution :=
  mkExecution None None fs None None.

(** Unfold one monadic program down to its case analysis. *)
Ltac run_M :=
  unfold mbind, M_bind, mret, M_ret, emit, alloc, panic, Error; simpl.

End Subprocess.

(** ** [execProxy.doExec]: one execution on demand *)
Module DoExec.
Import Subprocess.

(** [execProxyScrapeResult]. *)
Record execProxyScrapeResult : Type := mkResult {
  mfs : slice;
  err : goerror
}.

#[global] Instance execProxyScrapeResult_eq_dec : EqDecision execProxyScrapeResult.
Proof. solve_decision. Defined.

Definition doExec (x : Execution) : M execProxyScrapeResult :=
  emit (EvDebug "Executing metric script to service new scrape request") ;;
  emit EvStdoutPipe ;;
  match pipeErr x with
  | Some perr =>
      msg ← Error (Some perr);
      emit (EvError msg "Error opening stdout pipe to metric script") ;;
      mret (mkResult SliceNil (Some perr))
  | None =>
      emit EvStart ;;
      match startErr x with
      | Some serr =>
          msg ← Error (Some serr);
          emit (EvError msg "Error starting metric script") ;;
          mret (mkResult SliceNil (Some serr))
      | None =>
          '(decoded_mfs, derr) ← decodeMetrics x;
          emit EvKill ;;
          match killErr x with
          | Some kerr =>
              msg ← Error derr;
              emit (EvError msg "Error sending kill signal to subprocess") ;;
              mret (mkResult SliceNil (Some kerr))
          | None =>
              match derr with
              | Some derr' =>
                  msg ← Error (Some derr');
                  emit (EvError msg "Metric decoding from script output failed") ;;
                  mret (mkResult SliceNil (Some derr'))
              | None => mret (mkResult decoded_mfs None)
              end
          end
      end
  end.

Definition emptyWorld : World := mkWorld [] [].

(** A run in which the script prints one family and the kill fails. *)
Definition kill_fails : Execution :=
  mkExecution None None [mkFamily "x" ["x 1"]] None
    (Some (OSError "os: process already finished")).

(** *** Stage by stage *)

Lemma doExec_pipe_failure x w perr :
  pipeErr x = Some perr →
  doExec x w
  = (Returned (mkResult SliceNil (Some perr)),
     mkWorld (heap w)
       (events w ++
        [EvDebug "Executing metric script to service new scrape request";
         EvStdoutPipe;
         EvError (error_message perr) "Error opening stdout pipe to metric script"])).
Proof.
  intros Hp. unfold doExec. rewrite Hp. run_M.
  by rewrite <- !app_assoc.
Qed.

Lemma doExec_start_failure x w serr :
  pipeErr x = None → startErr x = Some serr →
  doExec x w
  = (Returned (mkResult SliceNil (Some serr)),
     mkWorld (heap w)
       (events w ++
        [EvDebug "Executing metric script to service new scrape request";
         EvStdoutPipe; EvStart;
         EvError (error_message serr) "Error starting metric script"])).
Proof.
  intros Hp Hs. unfold doExec. rewrite Hp, Hs. run_M.
  by rewrite <- !app_assoc.
Qed.

Lemma doExec_decode_failure x w derr :
  pipeErr x = None → startErr x = None → decodeErr x = Some derr →
  killErr x = None →
  doExec x w
  = (Returned (mkResult SliceNil (Some derr)),
     mkWorld (heap w)
       (events w ++
        [EvDebug "Executing metric script to service new scrape request";
         EvStdoutPipe; EvStart; EvDecode; EvKill;
         EvError (error_message derr) "Metric decoding from script output failed"])).
Proof.
  intros Hp Hs Hd Hk. unfold doExec, decodeMetrics. rewrite Hp, Hs, Hd, Hk. run_M.
  by rewrite <- !app_assoc.
Qed.

(** The kill fails after a failed decode: the result carries the kill's
    error, the log line carries the decoder's. *)
Lemma doExec_kill_failure_bad_decode x w derr kerr :
  pipeErr x = None → startErr x = None → decodeErr x = Some derr →
  killErr x = Some kerr →
  doExec x w
  = (Returned (mkResult SliceNil (Some kerr)),
     mkWorld (heap w)
       (events w ++
        [EvDebug "Executing metric script to service new scrape request";
         EvStdoutPipe; EvStart; EvDecode; EvKill;
         EvError (error_message derr) "Error sending kill signal to subprocess"])).
Proof.
  intros Hp Hs Hd Hk. unfold doExec, decodeMetrics. rewrite Hp, Hs, Hd, Hk. run_M.
  by rewrite <- !app_assoc.
Qed.

(** The kill fails after a good decode: [derr] is nil when the log line
    asks it for its text, and the goroutine panics. *)
Lemma doExec_kill_failure_good_decode x w kerr :
  pipeErr x = None → startErr x = None → decodeErr x = None →
  killErr x = Some kerr →
  doExec x w
  = (Panicked "invalid memory address or nil pointer dereference",
     mkWorld (heap w ++ [decoded x])
       (events w ++
        [EvDebug "Executing metric script to service new scrape request";
         EvStdoutPipe; EvStart; EvDecode; EvKill])).
Proof.
  intros Hp Hs Hd Hk. unfold doExec, decodeMetrics. rewrite Hp, Hs, Hd, Hk. run_M.
  by rewrite <- !app_assoc.
Qed.

Lemma doExec_success x w :
  succeeds x →
  doExec x w
  = (Returned (mkResult (SliceAt (length (heap w))) None),
     mkWorld (heap w ++ [decoded x])
       (events w ++
        [EvDebug "Executing metric script to service new scrape request";
         EvStdoutPipe; EvStart; EvDecode; EvKill])).
Proof.
  intros (Hp & Hs & Hd & Hk). unfold doExec, decodeMetrics.
  rewrite Hp, Hs, Hd, Hk. run_M. by rewrite <- !app_assoc.
Qed.

(** The family list of a successful result holds what was decoded. *)
Lemma doExec_success_contents x w r w' :
  succeeds x → doExec x w = (Returned r, w') →
  err r = None ∧ contents w' (mfs r) = decoded x.
Proof.
  intros Hok. rewrite (doExec_success x w Hok). intros [= <- <-].
  split; [done|]. simpl. by rewrite lookup_app_r, Nat.sub_diag.
Qed.

(** Once the script has started, its output is decoded and the kill is
    sent next, whatever the decoder said. *)
Lemma doExec_kills_after_decode x w :
  pipeErr x = None → startErr x = None →
  ∃ rest,
    events (doExec x w).2
    = events w ++
      [EvDebug "Executing metric script to service new scrape request";
       EvStdoutPipe; EvStart; EvDecode; EvKill] ++ rest.
Proof.
  intros Hp Hs.
  destruct (decodeErr x) as [derr|] eqn:Hd; destruct (killErr x) as [kerr|] eqn:Hk.
  - rewrite (doExec_kill_failure_bad_decode x w derr kerr) by done.
    by eexists [_].
  - rewrite (doExec_decode_failure x w derr) by done. by eexists [_].
  - rewrite (doExec_kill_failure_good_decode x w kerr) by done.
    exists []. by rewrite app_nil_r.
  - rewrite (doExec_success x w) by done. exists []. by rewrite app_nil_r.
Qed.

(** C2, at the input on which it fails: the script prints one family,
    decoding succeeds, and the kill reports an error.  [doExec] does not
    hand back a result carrying the kill's error: it panics on the nil
    [derr] of its log line.  (At every other combination of stage
    failures the result is the one the lemmas above give.) *)
Theorem doExec_kill_failure_crashes :
  (doExec kill_fails emptyWorld).1
  = Panicked "invalid memory address or nil pointer dereference"
  ∧ ¬ ∃ r, (doExec kill_fails emptyWorld).1 = Returned r.
Proof.
  split; [reflexivity|]. intros [r Hr]. vm_compute in Hr. discriminate Hr.
Qed.

End DoExec.

(** ** [execCachingProxy]: the periodic, caching proxy *)
Module ExecCachingProxy.
Import Subprocess.

(** The fields of [execCachingProxy] that change after construction.
    [resultReady] says that [resultReadyCh] has been closed. *)
Record execCachingProxy : Type := mkCaching {
  lastExec : nat;
  lastResult : slice;
  resultReady : bool
}.

(** The worker goroutine's view: the proxy and its local [rdyCh], which
    is [true] until the loop sets it to nil. *)
Record execerState : Type := mkExecer {
  proxy : execCachingProxy;
  rdyCh : bool
}.

(** [newExecCachingProxy]: an empty cache made with [make(.., 0)], an
    open readiness channel, the zero time. *)
Definition newExecCachingProxy : execerState :=
  mkExecer (mkCaching 0 SliceEmpty false) true.

(** [close(rdyCh)]; closing a closed channel panics. *)
Definition close (p : execCachingProxy) : M execCachingProxy :=
  if resultReady p then panic "close of closed channel"
  else emit EvClose ;; mret (mkCaching (lastExec p) (lastResult p) true).

(** One turn of the [for] loop of [execer], entered when the timer
    fires at time [now]. *)
Definition execer_iteration (now : nat) (x : Execution) (st : execerState)
    : M execerState :=
  emit (EvDebug "Waiting for next interval") ;;
  emit (EvDebug "Executing metric script on timeout") ;;
  let p := mkCaching now (lastResult (proxy st)) (resultReady (proxy st)) in
  let st := mkExecer p (rdyCh st) in
  emit EvStdoutPipe ;;
  match pipeErr x with
  | Some perr =>
      msg ← Error (Some perr);
      emit (EvError msg "Error opening stdout pipe to metric script") ;;
      mret st
  | None =>
      emit EvStart ;;
      match startErr x with
      | Some serr =>
          msg ← Error (Some serr);
          emit (EvError msg "Error starting metric script") ;;
          mret st
      | None =>
          '(mfs, derr) ← decodeMetrics x;
          emit EvKill ;;
          match killErr x with
          | Some _ =>
              msg ← Error derr;
              emit (EvError msg "Error sending kill signal to subprocess")
          | None => mret ()
          end ;;
          match derr with
          | Some derr' =>
              msg ← Error (Some derr');
              emit (EvError msg "Metric decoding from script output failed") ;;
              mret st
          | None =>
              emit EvLock ;;
              emit (EvStore mfs) ;;
              let p := mkCaching now mfs (resultReady p) in
              st' ← (if rdyCh st
                     then p' ← close p; mret (mkExecer p' false)
                     else mret (mkExecer p false));
              emit EvUnlock ;;
              mret st'
          end
      end
  end.

(** A finite stretch of the worker loop: the timer fires at the given
    times with the given answers from the outside. *)
Fixpoint execer (runs : list (nat * Execution)) (st : execerState)
    : M execerState :=
  match runs with
  | [] => mret st
  | (now, x) :: rest => st' ← execer_iteration now x st; execer rest st'
  end.

(** The two return paths of [Scrape]: the [ctx.Done()] branch of the
    select, and the read of the cache after the readiness branch. *)
Definition Scrape_timeout : slice * goerror :=
  (SliceEmpty, Some ErrScrapeTimeoutBeforeExecFinished).

Definition Scrape_read (p : execCachingProxy) : M (slice * goerror) :=
  emit EvRLock ;;
  let retMetrics := lastResult p in
  emit EvRUnlock ;;
  mret (retMetrics, None).

(** *** The proxy with its callers *)

(** One call of [Scrape]: blocked in the select (with its context done
    or not), past the readiness branch, or returned. *)
Inductive call : Type :=
| InSelect (ctxDone : bool)
| PastReady
| Done (ret : slice * goerror).

Record System : Type := mkSystem {
  worker : execerState;
  world : World;
  calls : list call;
  crashed : bool
}.

Definition init (n : nat) : System :=
  mkSystem newExecCachingProxy (mkWorld [] []) (replicate n (InSelect false)) false.

Inductive label : Type :=
| LExecer (now : nat) (x : Execution)
| LCtxDone (i : nat)
| LSelectReady (i : nat)
| LSelectCtx (i : nat)
| LRead (i : nat).

(** One scheduling decision.  The worker's turn is taken whole: all it
    does to shared memory sits in its critical section.  A panic in the
    worker goroutine ends the process. *)
Definition exec_step (l : label) (s : System) : option System :=
  if crashed s then None else
  match l with
  | LExecer now x =>
      match execer_iteration now x (worker s) (world s) with
      | (Returned st', w') => Some (mkSystem st' w' (calls s) false)
      | (Panicked _, w') => Some (mkSystem (worker s) w' (calls s) true)
      end
  | LCtxDone i =>
      match calls s !! i with
      | Some (InSelect false) =>
          Some (mkSystem (worker s) (world s) (<[i := InSelect true]> (calls s)) false)
      | _ => None
      end
  | LSelectReady i =>
      match calls s !! i with
      | Some (InSelect _) =>
          if resultReady (proxy (worker s))
          then Some (mkSystem (worker s)
                       (mkWorld (heap (world s))
                          (events (world s) ++ [EvDebug "Returning cached results fo scrape"]))
                       (<[i := PastReady]> (calls s)) false)
          else None
      | _ => None
      end
  | LSelectCtx i =>
      match calls s !! i with
      | Some (InSelect true) =>
          Some (mkSystem (worker s) (world s) (<[i := Done Scrape_timeout]> (calls s)) false)
      | _ => None
      end
  | LRead i =>
      match calls s !! i with
      | Some PastReady =>
          match Scrape_read (proxy (worker s)) (world s) with
          | (Returned ret, w') =>
              Some (mkSystem (worker s) w' (<[i := Done ret]> (calls s)) false)
          | (Panicked _, w') => Some (mkSystem (worker s) w' (calls s) true)
          end
      | _ => None
      end
  end.

Definition step (s s' : System) : Prop := ∃ l, exec_step l s = Some s'.

Fixpoint run (ls : list label) (s : System) : option System :=
  match ls with
  | [] => Some s
  | l :: rest => s' ← exec_step l s; run rest s'
  end.

Definition reachable (n : nat) (s : System) : Prop := rtc step (init n) s.

(** The cache generation: how many times [lastResult] has been stored. *)
Definition is_store (e : Event) : bool :=
  match e with EvStore _ => true | _ => false end.

Definition stores (evs : list Event) : nat :=
  length (filter (λ e, is_store e = true) evs).

Definition generation (s : System) : nat := stores (events (world s)).

Definition cache (s : System) : slice := lastResult (proxy (worker s)).

(** The local [rdyCh] is nil exactly when the channel has been closed. *)
Definition consistent (st : execerState) : Prop :=
  rdyCh st = negb (resultReady (proxy st)).

(** Events of the critical section that replaces the cache. *)
Definition touches_cache (e : Event) : bool :=
  match e with
  | EvLock | EvUnlock | EvStore _ | EvClose => true
  | _ => false
  end.

(** The events of a turn of the loop up to the kill. *)
Definition until_kill : list Event :=
  [EvDebug "Waiting for next interval";
   EvDebug "Executing metric script on timeout";
   EvStdoutPipe; EvStart; EvDecode; EvKill].

(** *** The worker loop, one turn at a time *)

Lemma execer_iteration_success now x st w :
  consistent st → succeeds x →
  execer_iteration now x st w
  = (Returned (mkExecer (mkCaching now (SliceAt (length (heap w))) true) false),
     mkWorld (heap w ++ [decoded x])
       (events w ++ until_kill
        ++ [EvLock; EvStore (SliceAt (length (heap w)))]
        ++ (if resultReady (proxy st) then [] else [EvClose])
        ++ [EvUnlock])).
Proof.
  intros Hc (Hp & Hs & Hd & Hk). unfold execer_iteration, decodeMetrics, close.
  rewrite Hp, Hs, Hd, Hk. unfold consistent in Hc.
  destruct st as [[le lr rdy] ch]; simpl in *; subst ch.
  destruct rdy; run_M; by rewrite <- !app_assoc.
Qed.

(** A turn in which some stage fails stores nothing, closes nothing and
    leaves both the cache and the readiness flag as they were; this
    covers the turn that ends in a panic. *)
Lemma execer_iteration_failure now x st w :
  ¬ succeeds x →
  ∃ new,
    events (execer_iteration now x st w).2 = events w ++ new
    ∧ Forall (λ e, touches_cache e = false) new
    ∧ ∀ st', (execer_iteration now x st w).1 = Returned st' →
        st' = mkExecer (mkCaching now (lastResult (proxy st))
                          (resultReady (proxy st))) (rdyCh st).
Proof.
  intros Hfail. unfold succeeds in Hfail. unfold execer_iteration, decodeMetrics.
  destruct x as [[perr|] [serr|] fs [derr|] [kerr|]]; simpl in *;
    try (exfalso; apply Hfail; done); run_M;
    rewrite <- ?app_assoc; simpl;
    (eexists; split; [reflexivity|]; split;
      [repeat constructor | intros st' Hst'; congruence]).
Qed.

Lemma execer_iteration_consistent now x st w st' :
  consistent st → (execer_iteration now x st w).1 = Returned st' →
  consistent st'.
Proof.
  intros Hc Hrun. destruct (decide (succeeds x)) as [Hok|Hfail].
  - rewrite execer_iteration_success in Hrun by done.
    simpl in Hrun. by injection Hrun as <-.
  - destruct (execer_iteration_failure now x st w Hfail) as (new & _ & _ & Hst).
    rewrite (Hst st' Hrun). exact Hc.
Qed.

(** Over a stretch of the loop that does not panic, the channel is
    closed at the end exactly when it was closed at the start or one of
    the executions succeeded. *)
Lemma execer_ready runs st w st' :
  consistent st → (execer runs st w).1 = Returned st' →
  consistent st'
  ∧ (resultReady (proxy st') = true
     ↔ resultReady (proxy st) = true ∨ Exists (λ r, succeeds r.2) runs).
Proof.
  revert st w. induction runs as [|[now x] runs IH]; intros st w Hc; simpl.
  - unfold mret, M_ret. simpl. intros [= <-]. split; [done|].
    rewrite Exists_nil. naive_solver.
  - unfold mbind, M_bind.
    destruct (execer_iteration now x st w) as [[st1|r] w1] eqn:Hit; [|done].
    intros Hrun.
    assert (consistent st1) as Hc1.
    { eapply (execer_iteration_consistent now x st w); [done|]. by rewrite Hit. }
    destruct (IH st1 w1 Hc1 Hrun) as [Hc' Hiff]. split; [done|].
    rewrite Hiff, Exists_cons. simpl.
    destruct (decide (succeeds x)) as [Hok|Hfail].
    + rewrite execer_iteration_success in Hit by done.
      injection Hit as <- _. simpl. naive_solver.
    + destruct (execer_iteration_failure now x st w Hfail) as (new & _ & _ & Hst).
      rewrite Hit in Hst. rewrite (Hst st1 eq_refl). simpl. naive_solver.
Qed.

(** C5: one turn of the exec-cached worker loop, from a state in which
    [rdyCh] is nil exactly when the channel is closed.  A successful
    execution stores the newly decoded list as the cache between [Lock]
    and [Unlock] and closes the readiness channel there when it was
    still open, and not otherwise; a turn in which the pipe, the start,
    the decode or the kill fails stores nothing, closes nothing, and
    leaves the cache and the readiness flag as they were.  Over any
    stretch of the loop, readiness holds at the end exactly when it held
    at the start or some execution of the stretch succeeded. *)
Theorem execer_iteration_cache now x st w :
  consistent st →
  (succeeds x →
     ∃ st', (execer_iteration now x st w).1 = Returned st'
       ∧ contents (execer_iteration now x st w).2 (lastResult (proxy st'))
         = decoded x
       ∧ resultReady (proxy st') = true
       ∧ events (execer_iteration now x st w).2
         = events w ++ until_kill
           ++ [EvLock; EvStore (lastResult (proxy st'))]
           ++ (if resultReady (proxy st) then [] else [EvClose])
           ++ [EvUnlock])
  ∧ (¬ succeeds x →
     (∃ new, events (execer_iteration now x st w).2 = events w ++ new
             ∧ Forall (λ e, touches_cache e = false) new)
     ∧ ∀ st', (execer_iteration now x st w).1 = Returned st' →
         lastResult (proxy st') = lastResult (proxy st)
         ∧ resultReady (proxy st') = resultReady (proxy st))
  ∧ (∀ runs st', (execer runs st w).1 = Returned st' →
       (resultReady (proxy st') = true
        ↔ resultReady (proxy st) = true ∨ Exists (λ r, succeeds r.2) runs)).
Proof.
  intros Hc. split; [|split].
  - intros Hok. rewrite execer_iteration_success by done.
    eexists. split; [reflexivity|]. simpl.
    split; [by rewrite lookup_app_r, Nat.sub_diag|]. done.
  - intros Hfail.
    destruct (execer_iteration_failure now x st w Hfail) as (new & Hev & Hnew & Hst).
    split; [by exists new|].
    intros st' Hst'. by rewrite (Hst st' Hst').
  - intros runs st' Hrun. by apply (execer_ready runs st w st' Hc Hrun).
Qed.

Lemma execer_iteration_cache_witness :
  ∃ st', (execer_iteration 5 (good [mkFamily "x" ["x 1"]])
            newExecCachingProxy (mkWorld [] [])).1 = Returned st'
         ∧ lastResult (proxy st') = SliceAt 0
         ∧ resultReady (proxy st') = true.
Proof.
  destruct (proj1 (execer_iteration_cache 5 (good [mkFamily "x" ["x 1"]])
                     newExecCachingProxy (mkWorld [] []) eq_refl))
    as (st' & Hrun & _ & Hready & _).
  - repeat split.
  - exists st'. split; [exact Hrun|]. split; [|exact Hready].
    vm_compute in Hrun. injection Hrun as <-. reflexivity.
Defined.

(** *** The proxy with its callers: what one step does *)

Lemma stores_app evs1 evs2 : stores (evs1 ++ evs2) = stores evs1 + stores evs2.
Proof. unfold stores. by rewrite filter_app, length_app. Qed.

Lemma stores_quiet evs :
  Forall (λ e, touches_cache e = false) evs → stores evs = 0.
Proof.
  unfold stores. induction 1 as [|e evs He _ IH]; [done|].
  rewrite filter_cons. destruct e; simpl in *; try discriminate; done.
Qed.

(** A step either leaves the cache and its generation alone, or is a
    successful turn of the worker, which stores a list allocated past
    the end of the old heap and leaves the channel closed. *)
Lemma execer_iteration_heap now x st w :
  length (heap w) ≤ length (heap (execer_iteration now x st w).2).
Proof.
  unfold execer_iteration, decodeMetrics, close.
  destruct x as [[perr|] [serr|] fs [derr|] [kerr|]]; run_M;
    destruct (rdyCh st), (resultReady (proxy st));
    run_M; rewrite ?length_app; simpl; lia.
Qed.

Local Ltac quiet_step :=
  repeat split; try done; try lia;
  try (intros ? ?; rewrite ?elem_of_app; auto).

Lemma exec_step_cache l s s' :
  consistent (worker s) → exec_step l s = Some s' →
  (cache s' = cache s ∧ generation s' = generation s
   ∧ resultReady (proxy (worker s')) = resultReady (proxy (worker s))
   ∧ length (heap (world s)) ≤ length (heap (world s'))
   ∧ (∀ e, e ∈ events (world s) → e ∈ events (world s'))
   ∧ consistent (worker s'))
  ∨ (cache s' = SliceAt (length (heap (world s)))
     ∧ generation s' = S (generation s)
     ∧ resultReady (proxy (worker s')) = true
     ∧ length (heap (world s')) = S (length (heap (world s)))
     ∧ (∀ e, e ∈ events (world s) → e ∈ events (world s'))
     ∧ EvStore (cache s') ∈ events (world s')
     ∧ calls s' = calls s
     ∧ consistent (worker s')).
Proof.
  intros Hc. unfold exec_step. destruct (crashed s); [done|].
  destruct l as [now x|i|i|i|i].
  - destruct (decide (succeeds x)) as [Hok|Hfail].
    + rewrite execer_iteration_success by done. intros [= <-]. right.
      unfold cache, generation. simpl. rewrite !stores_app.
      repeat split; try done.
      * destruct (resultReady _); vm_compute stores at 2; lia.
      * rewrite length_app. simpl. lia.
      * intros e He. apply elem_of_app. by left.
      * apply elem_of_app. right.
        repeat first [apply list_elem_of_here | apply list_elem_of_further].
    + destruct (execer_iteration_failure now x (worker s) (world s) Hfail)
        as (new & Hev & Hnew & Hst).
      pose proof (execer_iteration_heap now x (worker s) (world s)) as Hheap.
      destruct (execer_iteration now x (worker s) (world s)) as [[st'|r] w'] eqn:Hit;
        simpl in *; intros [= <-]; left; unfold cache, generation; simpl;
        rewrite Hev, stores_app, (stores_quiet new) by done.
      * rewrite (Hst st' eq_refl). simpl. quiet_step.
      * quiet_step.
  - destruct (calls s !! i) as [[[|]| |]|]; try done. intros [= <-].
    left. unfold cache, generation. simpl. quiet_step.
  - destruct (calls s !! i) as [[b| |]|]; try done.
    destruct (resultReady (proxy (worker s))) eqn:Hr; [|done]. intros [= <-].
    left. unfold cache, generation. simpl.
    rewrite stores_app. vm_compute stores at 2. quiet_step.
  - destruct (calls s !! i) as [[[|]| |]|]; try done. intros [= <-].
    left. unfold cache, generation. simpl. quiet_step.
  - destruct (calls s !! i) as [[b| |]|]; try done. unfold Scrape_read. run_M.
    intros [= <-]. left. unfold cache, generation. simpl.
    rewrite !stores_app. vm_compute stores at 2. vm_compute stores at 2.
    quiet_step.
Qed.

(** What a step does to one call: nothing, or one move of [Scrape]. *)
Lemma exec_step_calls l s s' i c' :
  exec_step l s = Some s' → calls s' !! i = Some c' →
  calls s !! i = Some c'
  ∨ (calls s !! i = Some (InSelect false) ∧ c' = InSelect true)
  ∨ ((∃ b, calls s !! i = Some (InSelect b)) ∧ c' = PastReady
     ∧ resultReady (proxy (worker s)) = true)
  ∨ (calls s !! i = Some (InSelect true) ∧ c' = Done Scrape_timeout)
  ∨ (calls s !! i = Some PastReady ∧ c' = Done (cache s, None)).
Proof.
  unfold exec_step. destruct (crashed s); [done|].
  destruct l as [now x|j|j|j|j].
  - destruct (execer_iteration _ _ _ _) as [[st'|r] w']; intros [= <-]; simpl; auto.
  - destruct (calls s !! j) as [[[|]| |]|] eqn:Hj; try done. intros [= <-]. simpl.
    destruct (decide (j = i)) as [->|Hne].
    + rewrite list_lookup_insert_eq by (by eapply lookup_lt_Some).
      intros [= <-]. auto.
    + rewrite list_lookup_insert_ne by done. auto.
  - destruct (calls s !! j) as [[b| |]|] eqn:Hj; try done.
    destruct (resultReady (proxy (worker s))) eqn:Hr; [|done]. intros [= <-]. simpl.
    destruct (decide (j = i)) as [->|Hne].
    + rewrite list_lookup_insert_eq by (by eapply lookup_lt_Some).
      intros [= <-]. right. right. left. eauto.
    + rewrite list_lookup_insert_ne by done. auto.
  - destruct (calls s !! j) as [[[|]| |]|] eqn:Hj; try done. intros [= <-]. simpl.
    destruct (decide (j = i)) as [->|Hne].
    + rewrite list_lookup_insert_eq by (by eapply lookup_lt_Some).
      intros [= <-]. auto 6.
    + rewrite list_lookup_insert_ne by done. auto.
  - destruct (calls s !! j) as [[b| |]|] eqn:Hj; try done.
    unfold Scrape_read. run_M. intros [= <-]. simpl.
    destruct (decide (j = i)) as [->|Hne].
    + rewrite list_lookup_insert_eq by (by eapply lookup_lt_Some).
      intros [= <-]. auto 6.
    + rewrite list_lookup_insert_ne by done. auto.
Qed.

(** *** What holds in every state the proxy can reach *)

Record invariant (s : System) : Prop := mkInvariant {
  inv_consistent : consistent (worker s);
  inv_ready_stored :
    resultReady (proxy (worker s)) = true → EvStore (cache s) ∈ events (world s);
  inv_cache_allocated :
    cache s = SliceEmpty
    ∨ ∃ l, cache s = SliceAt l ∧ l < length (heap (world s));
  inv_past_ready :
    ∀ i, calls s !! i = Some PastReady → resultReady (proxy (worker s)) = true;
  inv_done :
    ∀ i ret, calls s !! i = Some (Done ret) →
      ret = Scrape_timeout
      ∨ ∃ sl, ret = (sl, None) ∧ resultReady (proxy (worker s)) = true
              ∧ EvStore sl ∈ events (world s)
}.

Lemma cache_invariant_init n : invariant (init n).
Proof.
  split; simpl; try done.
  - by left.
  - intros i Hi. apply lookup_replicate in Hi as [? _]. done.
  - intros i ret Hi. apply lookup_replicate in Hi as [? _]. done.
Qed.

Lemma cache_invariant_step s s' : invariant s → step s s' → invariant s'.
Proof.
  intros [Hc Hrs Hca Hpr Hd] [l Hstep].
  pose proof (exec_step_calls l s s') as Hcalls.
  destruct (exec_step_cache l s s' Hc Hstep)
    as [(Hcache & Hgen & Hready & Hheap & Hev & Hc')
       |(Hcache & Hgen & Hready & Hheap & Hev & Hst & Hsame & Hc')].
  - split; [done|..].
    + rewrite Hready, Hcache. auto.
    + rewrite Hcache. destruct Hca as [?|(l0 & ? & ?)]; [by left|].
      right. exists l0. split; [done|lia].
    + intros i Hi. rewrite Hready.
      destruct (Hcalls i _ Hstep Hi) as [?|[[_ ?]|[(_ & _ & ?)|[[_ ?]|[_ ?]]]]];
        try done. eauto.
    + intros i ret Hi. rewrite Hready.
      destruct (Hcalls i _ Hstep Hi) as [?|[[_ ?]|[(_ & ? & _)|[[_ Heq]|[Hp Heq]]]]];
        try done.
      * destruct (Hd i ret) as [?|(sl & ? & ? & ?)]; [done|by left|].
        right. exists sl. auto.
      * injection Heq as ->. by left.
      * injection Heq as ->. right. exists (cache s).
        specialize (Hpr i Hp). auto.
  - split; [done|done|..].
    + right. exists (length (heap (world s))). split; [done|lia].
    + done.
    + intros i ret Hi. rewrite Hsame in Hi.
      destruct (Hd i ret Hi) as [?|(sl & ? & ? & ?)]; [by left|].
      right. exists sl. auto.
Qed.

Lemma cache_invariant_reachable n s : reachable n s → invariant s.
Proof.
  unfold reachable. revert s. apply rtc_ind_r.
  - apply cache_invariant_init.
  - intros s1 s2 _ Hstep IH. by eapply cache_invariant_step.
Qed.

(** Along any run the generation never goes back, and the cache is the
    same list as long as the generation is the same; a later generation
    has a list allocated after the earlier heap. *)
Lemma generation_cache s1 s2 :
  invariant s1 → rtc step s1 s2 →
  generation s1 ≤ generation s2
  ∧ length (heap (world s1)) ≤ length (heap (world s2))
  ∧ (generation s1 = generation s2 → cache s2 = cache s1)
  ∧ (generation s1 < generation s2 →
     ∃ l, cache s2 = SliceAt l ∧ length (heap (world s1)) ≤ l).
Proof.
  intros Hinv. revert s2. apply rtc_ind_r.
  - repeat split; try done. lia.
  - intros s2 s3 Hrun Hstep IH.
    destruct IH as (Hle & Hheap & Hsame & Hlater).
    assert (invariant s2) as Hinv2.
    { clear -Hinv Hrun. revert s2 Hrun. apply rtc_ind_r; [done|].
      intros ? ? _ ? ?. by eapply cache_invariant_step. }
    destruct Hstep as [l Hstep].
    destruct (exec_step_cache l s2 s3 (inv_consistent _ Hinv2) Hstep)
      as [(Hcache & Hgen & _ & Hheap' & _)|(Hcache & Hgen & _ & Hheap' & _)].
    + rewrite Hgen, Hcache. repeat split; [lia|lia|done|done].
    + rewrite Hgen, Hcache. repeat split; [lia|lia|lia|].
      intros _. eexists. split; [done|lia].
Qed.

Lemma cache_run_rtc ls s s' : run ls s = Some s' → rtc step s s'.
Proof.
  revert s. induction ls as [|l ls IH]; intros s; simpl.
  - intros [= <-]. apply rtc_refl.
  - destruct (exec_step l s) as [s1|] eqn:Hl; simpl; [|done].
    intros Hrest. eapply rtc_l; [by exists l|by apply IH].
Qed.

Lemma exec_step_read i s s' :
  exec_step (LRead i) s = Some s' →
  calls s !! i = Some PastReady
  ∧ calls s' !! i = Some (Done (cache s, None))
  ∧ events (world s') = events (world s) ++ [EvRLock; EvRUnlock].
Proof.
  unfold exec_step. destruct (crashed s); [done|].
  destruct (calls s !! i) as [[b| |]|] eqn:Hi; try done.
  unfold Scrape_read. run_M. intros [= <-]. simpl.
  rewrite list_lookup_insert_eq by (by eapply lookup_lt_Some).
  by rewrite <- app_assoc.
Qed.

(** *** Sample runs *)

Definition one_family : list MetricFamily := [mkFamily "x" ["x 1"]].

(** Two callers wait; the script runs once; both take the readiness
    branch. *)
Definition both_past_ready : list label :=
  [LExecer 1 (good one_family); LSelectReady 0; LSelectReady 1].

Definition after_both_past_ready : System :=
  Eval vm_compute in default (init 2) (run both_past_ready (init 2)).

Definition after_first_read : System :=
  Eval vm_compute in
    default (init 2) (exec_step (LRead 0) after_both_past_ready).

Definition after_second_read : System :=
  Eval vm_compute in
    default (init 2) (exec_step (LRead 1) after_first_read).

Lemma run_both_past_ready :
  run both_past_ready (init 2) = Some after_both_past_ready.
Proof. vm_compute. reflexivity. Qed.

Lemma first_read :
  exec_step (LRead 0) after_both_past_ready = Some after_first_read.
Proof. vm_compute. reflexivity. Qed.

Lemma second_read :
  exec_step (LRead 1) after_first_read = Some after_second_read.
Proof. vm_compute. reflexivity. Qed.

(** *** [Scrape]: readiness or the context (C6) *)



(** *** Who shares a family list (C9) *)

(** C9, as stated, fails: two calls of [Scrape] served from the same
    cache generation return the very same list. *)
Lemma scrapes_share_cached_list :
  ¬ (∀ n s1 s1' s2 s2' i j r1 r2,
       reachable n s1 → exec_step (LRead i) s1 = Some s1' →
       rtc step s1' s2 → exec_step (LRead j) s2 = Some s2' →
       i ≠ j → generation s1 = generation s2 →
       calls s1' !! i = Some (Done r1) → calls s2' !! j = Some (Done r2) →
       r1.1 ≠ r2.1).
Proof.
  intros Hall.
  refine (Hall 2 after_both_past_ready after_first_read after_first_read
            after_second_read 0 1 (SliceAt 0, None) (SliceAt 0, None)
            (cache_run_rtc _ _ _ run_both_past_ready) first_read (rtc_refl _ _)
            second_read _ _ _ _ eq_refl).
  - discriminate.
  - reflexivity.
  - reflexivity.
  - reflexivity.
Qed.

(** C9, amended: family lists are allocated once per successful
    execution of the script, not once per scrape.  A call of the
    exec-cached [Scrape] returns the cached list itself; two calls
    served from the same cache generation return the same in-memory
    list, and two calls served from different generations return
    different lists. *)
Theorem scrapes_share_per_generation n s1 s1' s2 s2' i j :
  reachable n s1 → exec_step (LRead i) s1 = Some s1' →
  rtc step s1' s2 → exec_step (LRead j) s2 = Some s2' →
  calls s1' !! i = Some (Done (cache s1, None))
  ∧ calls s2' !! j = Some (Done (cache s2, None))
  ∧ (generation s1 = generation s2 → cache s1 = cache s2)
  ∧ (generation s1 ≠ generation s2 → cache s1 ≠ cache s2).
Proof.
  intros Hreach H1 Hrun H2.
  destruct (exec_step_read i s1 s1' H1) as (_ & Hr1 & _).
  destruct (exec_step_read j s2 s2' H2) as (_ & Hr2 & _).
  pose proof (cache_invariant_reachable n s1 Hreach) as Hinv.
  assert (rtc step s1 s2) as Hrun' by (eapply rtc_l; [by eexists|done]).
  destruct (generation_cache s1 s2 Hinv Hrun') as (Hle & _ & Hsame & Hlater).
  repeat split; [done|done|by intros ?; symmetry; apply Hsame|].
  intros Hne. destruct Hlater as (l & Hl & Hfresh); [lia|].
  rewrite Hl. destruct (inv_cache_allocated _ Hinv) as [->|(l0 & -> & Hl0)]; [done|].
  intros [= ->]. lia.
Qed.

Lemma scrapes_share_per_generation_witness :
  calls after_first_read !! 0 = Some (Done (SliceAt 0, None))
  ∧ calls after_second_read !! 1 = Some (Done (SliceAt 0, None)).
Proof.
  destruct (scrapes_share_per_generation 2 after_both_past_ready
              after_first_read after_first_read after_second_read 0 1
              (cache_run_rtc both_past_ready (init 2) _ run_both_past_ready)
              first_read (rtc_refl _ _) second_read)
    as (Hr1 & Hr2 & _ & _).
  split; [exact Hr1|exact Hr2].
Defined.

End ExecCachingProxy.

(** ** [execProxy]: the coalescing proxy and its callers *)
Module ExecProxy.
Import Subprocess DoExec.

(** Where the worker goroutine [execer] stands. *)
Inductive workerPc : Type :=
| WLoop
    (** at the top of the [for] loop, [<-reqCh] not yet executed *)
| WParked
    (** blocked in [<-reqCh] *)
| WWoken
    (** a request was received; [Lock] of the emptiness test is next *)
| WExec
    (** waiters were found; [doExec] is next *)
| WHaveResult (r : loc)
    (** [doExec] returned the result struct at [r]; [Lock] is next *)
| WDispatch (r : loc) (sent : gset nat)
    (** holds [waitingMtx], inside the [range] loop, between two sends;
        [sent] are the channels already served *)
| WSending (r : loc) (sent : gset nat) (ch : nat)
    (** holds [waitingMtx], blocked in [ch <- result] *).

#[global] Instance workerPc_eq_dec : EqDecision workerPc.
Proof. solve_decision. Defined.

(** Where one call of [Scrape] stands. *)
Inductive callPc : Type :=
| CStart
    (** before the first [Lock] *)
| CNudge
    (** registered; the non-blocking send on [execReqCh] is next *)
| CSelect
    (** in the final select *)
| CCancel
    (** took the [ctx.Done()] branch; [Lock] is next *)
| CReturned (ret_mfs : slice) (ret_err : goerror).

#[global] Instance callPc_eq_dec : EqDecision callPc.
Proof. solve_decision. Defined.

(** A call and its context: [deadline] says whether [ctx.Done()] can
    ever fire. *)
Record call : Type := mkCall {
  pc : callPc;
  deadline : bool
}.

#[global] Instance call_eq_dec : EqDecision call.
Proof. solve_decision. Defined.

(** The proxy, its worker and its callers.  The channel a call makes is
    named by the call's index; [results] is the heap of
    [execProxyScrapeResult] structs, one per [doExec] that returned. *)
Record State : Type := mkState {
  worker : workerPc;
  waitingScrapes : gset nat;
  calls : list call;
  results : list execProxyScrapeResult;
  world : World;
  crashed : bool
}.

(** [newExecProxy], with the calls that will ever be made. *)
Definition newExecProxy (deadlines : list bool) : State :=
  mkState WLoop ∅ (mkCall CStart <$> deadlines) [] (mkWorld [] []) false.

(** [waitingMtx] is held across steps only by the worker's dispatch;
    every other critical section is a single step. *)
Definition dispatching (w : workerPc) : option (loc * gset nat) :=
  match w with
  | WDispatch r sent | WSending r sent _ => Some (r, sent)
  | _ => None
  end.

Definition mutexHeld (s : State) : bool :=
  match dispatching (worker s) with
  | Some _ => true
  | None => false
  end.

Definition set_worker (w : workerPc) (s : State) : State :=
  mkState w (waitingScrapes s) (calls s) (results s) (world s) (crashed s).

Definition set_waiting (ws : gset nat) (s : State) : State :=
  mkState (worker s) ws (calls s) (results s) (world s) (crashed s).

Definition set_pc (i : nat) (p : callPc) (s : State) : State :=
  mkState (worker s) (waitingScrapes s)
    (alter (λ c, mkCall p (deadline c)) i (calls s))
    (results s) (world s) (crashed s).

Definition log (e : Event) (s : State) : State :=
  mkState (worker s) (waitingScrapes s) (calls s) (results s)
    (mkWorld (heap (world s)) (events (world s) ++ [e])) (crashed s).

Definition pc_of (s : State) (i : nat) : option callPc := pc <$> calls s !! i.

Inductive label : Type :=
| LPark
    (** worker: [<-reqCh] finds no sender and blocks *)
| LCheck
    (** worker: [Lock]; [len(ep.waitingScrapes) > 0]; [Unlock] *)
| LExec (x : Execution)
    (** worker: [doExec], with the answers of the outside *)
| LLock
    (** worker: [Lock] before the dispatch *)
| LPick (i : nat)
    (** worker: the [range] hands out channel [i] next *)
| LSend
    (** worker: [ch <- result], received by the call in its select *)
| LClear
    (** worker: the [range] is over; new map; [Unlock] *)
| LRegister (i : nat)
    (** call: [Lock]; [make]; insert; [Unlock] *)
| LNudge (i : nat)
    (** call: the select with [default] on [execReqCh] *)
| LTimeout (i : nat)
    (** call: the final select takes [<-ctx.Done()] *)
| LCancel (i : nat)
    (** call: [Lock]; [delete]; [Unlock]; return *).

(** One scheduling decision; [None] when the goroutine concerned is
    not at that point or is blocked there. *)
Definition exec_step (l : label) (s : State) : option State :=
  if crashed s then None else
  match l with
  | LPark =>
      match worker s with
      | WLoop => Some (set_worker WParked s)
      | _ => None
      end
  | LCheck =>
      match worker s with
      | WWoken =>
          if decide (0 < size (waitingScrapes s))
          then Some (set_worker WExec s)
          else Some (set_worker WLoop s)
      | _ => None
      end
  | LExec x =>
      match worker s with
      | WExec =>
          match doExec x (world s) with
          | (Returned result, w') =>
              Some (mkState (WHaveResult (length (results s))) (waitingScrapes s)
                      (calls s) (results s ++ [result]) w' false)
          | (Panicked _, w') =>
              Some (mkState WExec (waitingScrapes s) (calls s) (results s) w' true)
          end
      | _ => None
      end
  | LLock =>
      match worker s with
      | WHaveResult r =>
          Some (log (EvDebug "Dispatching metrics to waiters")
                  (set_worker (WDispatch r ∅) s))
      | _ => None
      end
  | LPick i =>
      match worker s with
      | WDispatch r sent =>
          if decide (i ∈ waitingScrapes s ∧ i ∉ sent)
          then Some (set_worker (WSending r sent i) s)
          else None
      | _ => None
      end
  | LSend =>
      match worker s with
      | WSending r sent i =>
          match pc_of s i, results s !! r with
          | Some CSelect, Some result =>
              Some (set_pc i (CReturned (mfs result) (err result))
                      (set_worker (WDispatch r ({[i]} ∪ sent)) s))
          | _, _ => None
          end
      | _ => None
      end
  | LClear =>
      match worker s with
      | WDispatch r sent =>
          if decide (waitingScrapes s ⊆ sent)
          then Some (set_waiting ∅ (set_worker WLoop s))
          else None
      | _ => None
      end
  | LRegister i =>
      match pc_of s i with
      | Some CStart =>
          if mutexHeld s then None
          else Some (set_pc i CNudge (set_waiting ({[i]} ∪ waitingScrapes s) s))
      | _ => None
      end
  | LNudge i =>
      match pc_of s i with
      | Some CNudge =>
          if decide (worker s = WParked)
          then Some (log (EvDebug "Script execution request dispatched")
                       (set_pc i CSelect (set_worker WWoken s)))
          else Some (log (EvDebug "Script execution already pending")
                       (set_pc i CSelect s))
      | _ => None
      end
  | LTimeout i =>
      match calls s !! i with
      | Some (mkCall CSelect true) => Some (set_pc i CCancel s)
      | _ => None
      end
  | LCancel i =>
      match pc_of s i with
      | Some CCancel =>
          if mutexHeld s then None
          else Some (set_pc i (CReturned SliceNil (Some ErrScrapeTimeoutBeforeExecFinished))
                       (set_waiting (waitingScrapes s ∖ {[i]}) s))
      | _ => None
      end
  end.

Definition step (s s' : State) : Prop := ∃ l, exec_step l s = Some s'.

Fixpoint run (ls : list label) (s : State) : option State :=
  match ls with
  | [] => Some s
  | l :: rest => s' ← exec_step l s; run rest s'
  end.

Definition reachable (deadlines : list bool) (s : State) : Prop :=
  rtc step (newExecProxy deadlines) s.

(** No goroutine can move. *)
Definition stuck (s : State) : Prop := ∀ l, exec_step l s = None.

(** What a call that was served by the result struct at [r] returns. *)
Definition served_by (s : State) (r : loc) (p : callPc) : Prop :=
  ∃ result, results s !! r = Some result
            ∧ p = CReturned (mfs result) (err result).

Definition timed_out : callPc :=
  CReturned SliceNil (Some ErrScrapeTimeoutBeforeExecFinished).

Definition registered (p : callPc) : Prop :=
  p = CNudge ∨ p = CSelect ∨ p = CCancel.

(** The worker woke with [k] executions behind it and has not yet
    served call [i] from the execution that follows. *)
Definition window (k i : nat) (s : State) : Prop :=
  match worker s with
  | WWoken | WExec => length (results s) = k
  | WHaveResult r => r = k ∧ length (results s) = S k
  | WDispatch r sent | WSending r sent _ =>
      r = k ∧ length (results s) = S k ∧ i ∉ sent
  | WLoop | WParked => False
  end.

(** Call [i] was registered at a wake that had [k] executions behind
    it: it still waits for execution [k], or it gave up on its context,
    or it was served by execution [k]. *)
Definition coalesced (k i : nat) (s : State) : Prop :=
  ∃ c, calls s !! i = Some c
       ∧ ((registered (pc c) ∧ i ∈ waitingScrapes s ∧ window k i s)
          ∨ (pc c = timed_out ∧ deadline c = true)
          ∨ served_by s k (pc c)).

(** No call has a context that can be done. *)
Definition no_deadline (dl : list bool) : Prop := Forall (λ d, d = false) dl.

(** A bound on the number of steps still to come. *)
Definition worker_weight (w : workerPc) : nat :=
  match w with
  | WParked => 0
  | WLoop => 1
  | WSending _ _ _ => 2
  | WDispatch _ _ => 3
  | WHaveResult _ => 4
  | WExec => 5
  | WWoken => 6
  end.

Definition pc_weight (p : callPc) : nat :=
  match p with
  | CStart => 11
  | CNudge => 10
  | CSelect => 3
  | CCancel => 1
  | CReturned _ _ => 0
  end.

Definition measure (s : State) : nat :=
  (if crashed s then 0 else 1) + worker_weight (worker s)
  + sum_list_with (λ c, pc_weight (pc c)) (calls s).

(** What holds of the proxy in every state it can reach. *)
Record invariant (deadlines : list bool) (s : State) : Prop := mkInvariant {
  inv_deadlines : deadline <$> calls s = deadlines;
  inv_waiting :
    ∀ i, i ∈ waitingScrapes s →
      ∃ p, pc_of s i = Some p
           ∧ (registered p
              ∨ ∃ r sent, dispatching (worker s) = Some (r, sent) ∧ i ∈ sent);
  inv_registered :
    ∀ i p, pc_of s i = Some p → registered p → i ∈ waitingScrapes s;
  inv_sent :
    ∀ r sent i, dispatching (worker s) = Some (r, sent) → i ∈ sent →
      ∃ m e, pc_of s i = Some (CReturned m e);
  inv_sending :
    ∀ r sent i, worker s = WSending r sent i → i ∈ waitingScrapes s ∧ i ∉ sent;
  inv_cancel : ∀ i d, calls s !! i = Some (mkCall CCancel d) → d = true;
  inv_result :
    ∀ r sent, dispatching (worker s) = Some (r, sent) → r < length (results s);
  inv_have_result : ∀ r, worker s = WHaveResult r → r < length (results s)
}.

(** *** Reading a state after a call has moved *)

Lemma pc_of_set_pc i j p s :
  pc_of (set_pc i p s) j
  = if decide (i = j) then (λ _, p) <$> pc_of s j else pc_of s j.
Proof.
  unfold pc_of, set_pc. simpl. case_decide as Hij.
  - subst j. rewrite list_lookup_alter_eq. by destruct (calls s !! i).
  - by rewrite list_lookup_alter_ne.
Qed.

Lemma pc_of_deadline s i p :
  pc_of s i = Some p → ∃ d, calls s !! i = Some (mkCall p d).
Proof.
  unfold pc_of. destruct (calls s !! i) as [[q d]|]; [|done].
  intros [= <-]. by exists d.
Qed.

(** *** Every run ends *)

Lemma weight_alter (cs : list call) i c p :
  cs !! i = Some c →
  sum_list_with (λ c, pc_weight (pc c)) (alter (λ c, mkCall p (deadline c)) i cs)
  + pc_weight (pc c)
  = sum_list_with (λ c, pc_weight (pc c)) cs + pc_weight p.
Proof.
  revert i. induction cs as [|c0 cs IH]; intros [|i]; simpl; try done.
  - intros [= ->]. lia.
  - intros Hi. specialize (IH i Hi). unfold alter in *. lia.
Qed.

Lemma measure_set_pc i p q s :
  pc_of s i = Some q →
  measure (set_pc i p s) + pc_weight q = measure s + pc_weight p.
Proof.
  intros Hq. apply pc_of_deadline in Hq as [d Hi].
  unfold measure, set_pc. simpl.
  pose proof (weight_alter (calls s) i _ p Hi) as Hw. simpl in Hw. lia.
Qed.

(** Each step brings the end nearer. *)
Lemma step_measure l s s' : exec_step l s = Some s' → measure s' < measure s.
Proof.
  unfold exec_step. destruct (crashed s) eqn:Hlive; [done|].
  destruct l as [| |x| |i| | |i|i|i|i].
  - destruct (worker s) eqn:Hw; try done. intros [= <-].
    unfold measure. simpl. rewrite Hlive, Hw. simpl. lia.
  - destruct (worker s) eqn:Hw; try done.
    case_decide; intros [= <-]; unfold measure; simpl; rewrite Hlive, Hw; simpl; lia.
  - destruct (worker s) eqn:Hw; try done.
    destruct (doExec x (world s)) as [[result|msg] w']; intros [= <-];
      unfold measure; simpl; rewrite Hlive, Hw; simpl; lia.
  - destruct (worker s) eqn:Hw; try done. intros [= <-].
    unfold measure. simpl. rewrite Hlive, Hw. simpl. lia.
  - destruct (worker s) eqn:Hw; try done. case_decide; [|done]. intros [= <-].
    unfold measure. simpl. rewrite Hlive, Hw. simpl. lia.
  - destruct (worker s) as [| | | | | |r sent i] eqn:Hw; try done.
    destruct (pc_of s i) as [[]|] eqn:Hi; try done.
    destruct (results s !! r) as [result|]; [|done]. intros [= <-].
    pose proof (measure_set_pc i (CReturned (mfs result) (err result)) _
                  (set_worker (WDispatch r ({[i]} ∪ sent)) s) Hi) as Hm.
    unfold measure in *. simpl in *. rewrite Hw. simpl. lia.
  - destruct (worker s) eqn:Hw; try done. case_decide; [|done]. intros [= <-].
    unfold measure. simpl. rewrite Hlive, Hw. simpl. lia.
  - destruct (pc_of s i) as [[]|] eqn:Hi; try done.
    destruct (mutexHeld s); [done|]. intros [= <-].
    pose proof (measure_set_pc i CNudge _
                  (set_waiting ({[i]} ∪ waitingScrapes s) s) Hi) as Hm.
    unfold measure in *. simpl in *. lia.
  - destruct (pc_of s i) as [[]|] eqn:Hi; try done.
    case_decide as Hw; intros [= <-].
    + pose proof (measure_set_pc i CSelect _ (set_worker WWoken s) Hi) as Hm.
      unfold measure in *. simpl in *. rewrite Hw in *. simpl in *. lia.
    + pose proof (measure_set_pc i CSelect _ s Hi) as Hm.
      unfold measure in *. simpl in *. lia.
  - destruct (calls s !! i) as [[[] []]|] eqn:Hi; try done. intros [= <-].
    assert (pc_of s i = Some CSelect) as Hp by (unfold pc_of; by rewrite Hi).
    pose proof (measure_set_pc i CCancel _ s Hp) as Hm.
    unfold measure in *. simpl in *. lia.
  - destruct (pc_of s i) as [[]|] eqn:Hi; try done.
    destruct (mutexHeld s); [done|]. intros [= <-].
    pose proof (measure_set_pc i timed_out _
                  (set_waiting (waitingScrapes s ∖ {[i]}) s) Hi) as Hm.
    unfold measure, timed_out in *. simpl in *. lia.
Qed.

Lemma run_length ls s s' : run ls s = Some s' → length ls + measure s' ≤ measure s.
Proof.
  revert s. induction ls as [|l ls IH]; intros s; simpl.
  - intros [= <-]. lia.
  - destruct (exec_step l s) as [s1|] eqn:Hl; simpl; [|done].
    intros Hrest. apply IH in Hrest. apply step_measure in Hl. lia.
Qed.

Lemma run_rtc ls s s' : run ls s = Some s' → rtc step s s'.
Proof.
  revert s. induction ls as [|l ls IH]; intros s; simpl.
  - intros [= <-]. apply rtc_refl.
  - destruct (exec_step l s) as [s1|] eqn:Hl; simpl; [|done].
    intros Hrest. eapply rtc_l; [by exists l|by apply IH].
Qed.

(** *** The invariant is kept by every step *)

(** Case analysis on a step that was taken. *)
Ltac step_inv H :=
  unfold exec_step in H;
  destruct (crashed _) eqn:?; [done|];
  repeat (case_match; try done); simplify_eq.

(** Unfold the state updates. *)
Ltac norm :=
  unfold pc_of, set_pc, set_worker, set_waiting, log, mutexHeld in *; simpl in *.

Lemma deadlines_alter p i (cs : list call) :
  deadline <$> alter (λ c, mkCall p (deadline c)) i cs = deadline <$> cs.
Proof.
  revert i. induction cs as [|c cs IH]; intros [|i]; simpl; [done..|].
  f_equal. apply IH.
Qed.

Lemma pc_alter p i j (cs : list call) :
  pc <$> alter (λ c, mkCall p (deadline c)) i cs !! j
  = if decide (i = j) then (λ _, p) <$> cs !! j else pc <$> cs !! j.
Proof.
  rewrite list_lookup_alter. case_decide; [|done]. subst j. by destruct (cs !! i).
Qed.

Lemma call_alter p i j c (cs : list call) :
  alter (λ c, mkCall p (deadline c)) i cs !! j = Some c →
  (i = j ∧ pc c = p ∧ ∃ q, cs !! j = Some (mkCall q (deadline c)))
  ∨ (i ≠ j ∧ cs !! j = Some c).
Proof.
  rewrite list_lookup_alter. case_decide; [|by right]. subst j.
  destruct (cs !! i) as [[q d]|]; [|done]. simpl. intros [= <-]. left. eauto.
Qed.

Lemma step_deadlines dl l s s' :
  deadline <$> calls s = dl → exec_step l s = Some s' → deadline <$> calls s' = dl.
Proof.
  intros Hd Hstep. step_inv Hstep; norm; rewrite ?deadlines_alter; done.
Qed.

Lemma step_cancel l s s' :
  (∀ i d, calls s !! i = Some (mkCall CCancel d) → d = true) →
  exec_step l s = Some s' →
  ∀ i d, calls s' !! i = Some (mkCall CCancel d) → d = true.
Proof.
  intros Hc Hstep j d. step_inv Hstep; norm; try (by apply Hc);
    intros [(-> & Hp & q & Hq)|[_ Hj]]%call_alter; simplify_eq/=;
    try (by eapply Hc); done.
Qed.

Lemma step_results l s s' :
  (∀ r sent, dispatching (worker s) = Some (r, sent) → r < length (results s)) →
  (∀ r, worker s = WHaveResult r → r < length (results s)) →
  exec_step l s = Some s' →
  (∀ r sent, dispatching (worker s') = Some (r, sent) → r < length (results s'))
  ∧ (∀ r, worker s' = WHaveResult r → r < length (results s')).
Proof.
  intros Hres Hhr Hstep.
  step_inv Hstep; norm; (split; [intros r0 sent0 Hd|intros r0 Hd]);
    simplify_eq/=; try done;
    try (by eapply Hres);
    try (by eapply Hhr); try (rewrite length_app; simpl; lia).
Qed.

Lemma step_sending l s s' :
  (∀ r sent i, worker s = WSending r sent i → i ∈ waitingScrapes s ∧ i ∉ sent) →
  exec_step l s = Some s' →
  ∀ r sent i, worker s' = WSending r sent i → i ∈ waitingScrapes s' ∧ i ∉ sent.
Proof.
  intros Hsg Hstep r0 sent0 j.
  step_inv Hstep; norm; intros Hw'; simplify_eq/=; try done;
    try (by eapply Hsg);
    by match goal with
       | H : match dispatching (worker _) with _ => _ end = false |- _ =>
           rewrite Hw' in H
       end.
Qed.

Lemma step_sent l s s' :
  (∀ r sent i, dispatching (worker s) = Some (r, sent) → i ∈ sent →
     ∃ m e, pc_of s i = Some (CReturned m e)) →
  exec_step l s = Some s' →
  ∀ r sent i, dispatching (worker s') = Some (r, sent) → i ∈ sent →
    ∃ m e, pc_of s' i = Some (CReturned m e).
Proof.
  intros Hs Hstep r0 sent0 j.
  step_inv Hstep; norm; rewrite ?pc_alter; intros Hd Hj; simplify_eq/=;
    try done; try (by eapply Hs).
  - (* LSend *)
    destruct (decide (ch = j)) as [->|Hch].
    + destruct (calls s !! j); simplify_eq/=. eauto.
    + eapply Hs; [done|]. set_solver.
  - destruct (decide (i = j)) as [->|Hij]; [|by eapply Hs].
    destruct (Hs _ _ j Hd Hj) as (m & e & Hm). congruence.
  - destruct (decide (i = j)) as [->|Hij]; [|by eapply Hs].
    destruct (Hs _ _ j Hd Hj) as (m & e & Hm). congruence.
  - destruct (decide (i = j)) as [->|Hij]; [|by eapply Hs].
    destruct (Hs _ _ j Hd Hj) as (m & e & Hm).
    destruct (calls s !! j) as [[]|]; simplify_eq/=.
  - destruct (decide (i = j)) as [->|Hij]; [|by eapply Hs].
    destruct (Hs _ _ j Hd Hj) as (m & e & Hm). congruence.
Qed.


Ltac moved_call Hcall :=
  match type of Hcall with
  | pc <$> calls ?s !! ?j = Some _ =>
      destruct (calls s !! j); simplify_eq/=
  | calls ?s !! ?j = Some _ => rewrite Hcall; simpl
  end.

Lemma step_waiting dl l s s' :
  invariant dl s → exec_step l s = Some s' →
  ∀ i, i ∈ waitingScrapes s' →
    ∃ p, pc_of s' i = Some p
         ∧ (registered p
            ∨ ∃ r sent, dispatching (worker s') = Some (r, sent) ∧ i ∈ sent).
Proof.
  intros [_ Hw _ _ _ _ _ _] Hstep j.
  step_inv Hstep; norm; rewrite ?pc_alter; intros Hj; try (by apply Hw).
  - (* LLock *)
    destruct (Hw j Hj) as (p & Hp & [Hreg|(? & ? & ? & ?)]); [|done].
    exists p. split; [done|by left].
  - (* LSend *)
    destruct (decide (ch = j)) as [->|Hne].
    + match goal with H : pc <$> calls s !! j = Some CSelect |- _ => moved_call H end.
      eexists. split; [done|]. right. eexists _, _. split; [done|]. set_solver.
    + destruct (Hw j Hj) as (p & Hp & [Hreg|(r0 & sent0 & Heq & Hin)]).
      * exists p. split; [done|by left].
      * exists p. split; [done|]. right. simplify_eq.
        eexists _, _. split; [done|]. set_solver.
  - (* LClear *) by apply not_elem_of_empty in Hj.
  - (* LRegister *)
    destruct (decide (i = j)) as [->|Hne].
    + match goal with H : pc <$> calls s !! j = Some CStart |- _ => moved_call H end.
      eexists. split; [done|]. left. unfold registered. auto.
    + apply Hw. set_solver.
  - (* LNudge, worker parked *)
    destruct (decide (i = j)) as [->|Hne].
    + match goal with H : pc <$> calls s !! j = Some CNudge |- _ => moved_call H end.
      eexists. split; [done|]. left. unfold registered. auto.
    + destruct (Hw j Hj) as (p & Hp & [Hreg|(r0 & sent0 & Heq & Hin)]).
      * exists p. split; [done|by left].
      * match goal with H : worker s = WParked |- _ => rewrite H in Heq end. done.
  - (* LNudge, dropped *)
    destruct (decide (i = j)) as [->|Hne]; [|by apply Hw].
    match goal with H : pc <$> calls s !! j = Some CNudge |- _ => moved_call H end.
    eexists. split; [done|]. left. unfold registered. auto.
  - (* LTimeout *)
    destruct (decide (i = j)) as [->|Hne]; [|by apply Hw].
    match goal with H : calls s !! j = Some _ |- _ => moved_call H end.
    eexists. split; [done|]. left. unfold registered. auto.
  - (* LCancel *)
    destruct (decide (i = j)) as [->|Hne]; [set_solver|].
    apply Hw. set_solver.
Qed.

Ltac not_registered Hreg := destruct Hreg as [?|[?|?]]; simplify_eq.

Lemma registered_CNudge : registered CNudge.
Proof. unfold registered. auto. Qed.

Lemma registered_CSelect : registered CSelect.
Proof. unfold registered. auto. Qed.

Lemma registered_CCancel : registered CCancel.
Proof. unfold registered. auto. Qed.

Lemma step_registered dl l s s' :
  invariant dl s → exec_step l s = Some s' →
  ∀ i p, pc_of s' i = Some p → registered p → i ∈ waitingScrapes s'.
Proof.
  intros [_ _ Hr Hs _ _ _ _] Hstep j p.
  step_inv Hstep; norm; rewrite ?pc_alter; intros Hp Hreg;
    try (by eapply Hr).
  - (* LSend *)
    destruct (decide (ch = j)) as [->|Hne]; [|by eapply Hr].
    destruct (calls s !! j); simplify_eq/=. not_registered Hreg.
  - (* LClear *)
    assert (j ∈ waitingScrapes s) as Hj by (by eapply Hr).
    destruct (Hs _ _ j eq_refl) as (m & e & Hm); [set_solver|].
    rewrite Hm in Hp. simplify_eq. not_registered Hreg.
  - (* LRegister *)
    destruct (decide (i = j)) as [->|Hne]; [set_solver|].
    apply elem_of_union_r. by eapply Hr.
  - (* LNudge, worker parked *)
    destruct (decide (i = j)) as [->|Hne]; [|by eapply Hr].
    eapply Hr; [done|apply registered_CNudge].
  - (* LNudge, dropped *)
    destruct (decide (i = j)) as [->|Hne]; [|by eapply Hr].
    eapply Hr; [done|apply registered_CNudge].
  - (* LTimeout *)
    destruct (decide (i = j)) as [->|Hne]; [|by eapply Hr].
    eapply (Hr j CSelect); [|apply registered_CSelect].
    match goal with H : calls s !! j = Some _ |- _ => by rewrite H end.
  - (* LCancel *)
    destruct (decide (i = j)) as [->|Hne].
    + destruct (calls s !! j); simplify_eq/=. not_registered Hreg.
    + apply elem_of_difference. split; [by eapply Hr|set_solver].
Qed.

Lemma invariant_init dl : invariant dl (newExecProxy dl).
Proof.
  split; simpl; try done.
  - rewrite <- list_fmap_compose. apply list_fmap_id.
  - intros i p Hp Hreg. unfold pc_of in Hp. simpl in Hp.
    rewrite list_lookup_fmap in Hp.
    destruct (dl !! i); simplify_eq/=. not_registered Hreg.
  - intros i d Hi. rewrite list_lookup_fmap in Hi.
    destruct (dl !! i); simplify_eq/=.
Qed.

Lemma invariant_step dl s s' : invariant dl s → step s s' → invariant dl s'.
Proof.
  intros Hinv [l Hstep].
  destruct (step_results l s s' (inv_result _ _ Hinv) (inv_have_result _ _ Hinv) Hstep)
    as [Hres Hhr].
  split; [| | | | | |done|done].
  - by eapply step_deadlines; [apply Hinv|].
  - by eapply step_waiting.
  - by eapply step_registered.
  - by eapply step_sent; [apply Hinv|].
  - by eapply step_sending; [apply Hinv|].
  - by eapply step_cancel; [apply Hinv|].
Qed.

Lemma invariant_reachable dl s : reachable dl s → invariant dl s.
Proof.
  unfold reachable. revert s. apply rtc_ind_r.
  - apply invariant_init.
  - intros s1 s2 _ Hstep IH. by eapply invariant_step.
Qed.

Lemma invariant_rtc dl s s' : invariant dl s → rtc step s s' → invariant dl s'.
Proof.
  intros Hinv. revert s'. apply rtc_ind_r; [done|].
  intros s1 s2 _ Hstep IH. by eapply invariant_step.
Qed.

(** *** Calls registered at one wake belong to one execution *)

Ltac split_index :=
  match goal with
  | |- context [decide (?a = ?b)] => destruct (decide (a = b)) as [->|?]
  end.

Lemma step_returned_stable l s s' i c m e :
  exec_step l s = Some s' → calls s !! i = Some c → pc c = CReturned m e →
  calls s' !! i = Some c.
Proof.
  intros Hstep Hc Hp. step_inv Hstep; norm; try done;
    rewrite list_lookup_alter; split_index; try done;
    rewrite Hc in *; simplify_eq/=; congruence.
Qed.

Lemma step_results_stable l s s' k r :
  exec_step l s = Some s' → results s !! k = Some r → results s' !! k = Some r.
Proof.
  intros Hstep Hk. step_inv Hstep; norm; try done.
  by apply lookup_app_l_Some.
Qed.

Lemma step_coalesced dl l s s' k i :
  invariant dl s → exec_step l s = Some s' →
  coalesced k i s → coalesced k i s'.
Proof.
  intros Hinv Hstep (c & Hc & [(Hreg & Hin & Hwin)|[[Hto Hd]|Hserved]]).
  - pose proof (inv_cancel _ _ Hinv i) as Hcancel. clear Hinv.
    step_inv Hstep;
      unfold window in Hwin;
      repeat match goal with
             | H : worker s = _ |- _ => rewrite H in Hwin; simpl in Hwin
             end;
      try done; unfold coalesced, window; norm.
    + (* LCheck, waiters found *) exists c. split; [done|]. by left.
    + (* LCheck, no waiter *)
      exfalso. assert (size (waitingScrapes s) = 0) as Hz by lia.
      apply size_empty_iff in Hz. set_solver.
    + (* LExec *) exists c. split; [done|]. left.
      rewrite length_app. simpl. repeat split; try done; lia.
    + (* LExec, panic *) exists c. split; [done|]. by left.
    + (* LLock *) exists c. split; [done|]. left.
      destruct Hwin as [-> ?]. repeat split; try done; apply not_elem_of_empty.
    + (* LPick *) exists c. split; [done|]. by left.
    + (* LSend *)
      destruct Hwin as (-> & Hlen & Hsent).
      rewrite list_lookup_alter. split_index.
      * rewrite Hc. simpl. eexists. split; [done|]. right. right.
        eexists. split; [done|]. done.
      * exists c. split; [done|]. left. repeat split; try done; set_solver.
    + (* LClear *) exfalso. destruct Hwin as (_ & _ & Hsent). set_solver.
    + (* LRegister *)
      rewrite list_lookup_alter. split_index.
      * rewrite Hc in *. simplify_eq/=.
        match goal with H : pc c = CStart |- _ => rewrite H in Hreg end.
        not_registered Hreg.
      * exists c. split; [done|]. left. repeat split; try done; set_solver.
    + (* LNudge, dropped *)
      rewrite list_lookup_alter. split_index.
      * rewrite Hc. simpl. eexists. split; [done|]. left. simpl.
        repeat split; try done; apply registered_CSelect.
      * exists c. split; [done|]. by left.
    + (* LTimeout *)
      rewrite list_lookup_alter. split_index.
      * rewrite Hc. simpl. eexists. split; [done|]. left. simpl.
        repeat split; try done; apply registered_CCancel.
      * exists c. split; [done|]. by left.
    + (* LCancel *)
      rewrite list_lookup_alter. split_index.
      * rewrite Hc in *. simplify_eq/=. eexists. split; [done|]. right. left.
        simpl. split; [done|]. apply Hcancel. destruct c as [p d]. simpl in *.
        by subst p.
      * exists c. split; [done|]. left. repeat split; try done; set_solver.
  - exists c. split; [by eapply step_returned_stable|]. right. by left.
  - exists c. split.
    + destruct Hserved as (r & Hr & Hp). by eapply step_returned_stable.
    + right. right. destruct Hserved as (r & Hr & Hp). exists r.
      split; [by eapply step_results_stable|done].
Qed.

(** *** A call that still waits is not left alone *)

Lemma no_deadline_call dl s i c :
  invariant dl s → no_deadline dl → calls s !! i = Some c → deadline c = false.
Proof.
  intros Hinv Hno Hc. pose proof (inv_deadlines _ _ Hinv) as Hd.
  assert (dl !! i = Some (deadline c)) as Hi.
  { rewrite <- Hd, list_lookup_fmap, Hc. done. }
  unfold no_deadline in Hno. rewrite Forall_lookup in Hno. by eapply Hno.
Qed.

Lemma coalesced_progress dl k i s :
  invariant dl s → no_deadline dl → crashed s = false →
  coalesced k i s → stuck s →
  ∃ c, calls s !! i = Some c ∧ served_by s k (pc c).
Proof.
  intros Hinv Hno Hlive (c & Hc & [(Hreg & Hin & Hwin)|[[Hto Hd]|Hserved]]) Hstuck.
  - exfalso. unfold window in Hwin.
    destruct (worker s) as [| | | |r|r sent|r sent j] eqn:Hw; try done.
    + specialize (Hstuck LCheck). unfold exec_step in Hstuck.
      rewrite Hlive, Hw in Hstuck. by case_decide.
    + specialize (Hstuck (LExec (good []))). unfold exec_step in Hstuck.
      rewrite Hlive, Hw in Hstuck. by destruct (doExec _ _) as [[?|?] ?].
    + specialize (Hstuck LLock). unfold exec_step in Hstuck.
      by rewrite Hlive, Hw in Hstuck.
    + destruct Hwin as (_ & _ & Hsent).
      specialize (Hstuck (LPick i)). unfold exec_step in Hstuck.
      rewrite Hlive, Hw in Hstuck. case_decide as Hd; [done|]. apply Hd. done.
    + destruct Hwin as (Hrk & Hlen & Hsent). subst r.
      destruct (inv_sending _ _ Hinv _ _ _ Hw) as [Hj Hjs].
      destruct (inv_waiting _ _ Hinv j Hj) as (p & Hp & [Hpreg|(r0 & s0 & Heq & Hin0)]).
      2:{ rewrite Hw in Heq. simpl in Heq. by simplify_eq. }
      destruct (pc_of_deadline _ _ _ Hp) as [d Hcj].
      pose proof (no_deadline_call _ _ _ _ Hinv Hno Hcj) as Hdj. simpl in Hdj.
      destruct Hpreg as [->|[->| ->]].
      * specialize (Hstuck (LNudge j)). unfold exec_step in Hstuck.
        rewrite Hlive, Hp in Hstuck. by case_decide.
      * specialize (Hstuck LSend). unfold exec_step in Hstuck.
        rewrite Hlive, Hw, Hp in Hstuck.
        destruct (lookup_lt_is_Some_2 (results s) k) as [res Hres]; [lia|].
        by rewrite Hres in Hstuck.
      * rewrite (inv_cancel _ _ Hinv j d Hcj) in Hdj. done.
  - by rewrite (no_deadline_call _ _ _ _ Hinv Hno Hc) in Hd.
  - by exists c.
Qed.

Lemma coalesced_at_wake dl s i :
  invariant dl s → worker s = WWoken → i ∈ waitingScrapes s →
  coalesced (length (results s)) i s.
Proof.
  intros Hinv Hw Hi.
  destruct (inv_waiting _ _ Hinv i Hi) as (p & Hp & [Hreg|(r & sent & Hd & _)]).
  2:{ rewrite Hw in Hd. done. }
  destruct (pc_of_deadline _ _ _ Hp) as [d Hc].
  eexists. split; [done|]. left. unfold window. rewrite Hw. done.
Qed.

Lemma coalesced_rtc dl k i s s' :
  invariant dl s → coalesced k i s → rtc step s s' → coalesced k i s'.
Proof.
  intros Hinv Hco. revert s'. apply rtc_ind_r; [done|].
  intros s1 s2 Hrun [l Hstep] IH.
  eapply step_coalesced; [by eapply invariant_rtc|done|done].
Qed.

Lemma coalesced_returned dl k i s m e :
  invariant dl s → coalesced k i s → pc_of s i = Some (CReturned m e) →
  (dl !! i = Some true ∧ CReturned m e = timed_out)
  ∨ results s !! k = Some (mkResult m e).
Proof.
  intros Hinv (c & Hc & Hcase) Hp. unfold pc_of in Hp. rewrite Hc in Hp.
  simpl in Hp. injection Hp as Hp.
  destruct Hcase as [(Hreg & _)|[[Hto Hd]|(res & Hres & Hserved)]].
  - rewrite Hp in Hreg. not_registered Hreg.
  - left. split; [|congruence].
    rewrite <- (inv_deadlines _ _ Hinv), list_lookup_fmap, Hc. simpl. by rewrite Hd.
  - right. rewrite Hres. destruct res as [rm re]. simpl in *. congruence.
Qed.

(** *** Coalescing *)

(** What does hold of coalescing: take any reachable state in which
    the worker has just been woken, let [k] be the number of executions
    behind it, and consider the calls registered in the waiter set at
    that point, however many.
    In every later state, such a call that has returned has either
    given up on its own context or holds the fields of the one result
    struct of execution [k]; any two such calls without deadline that
    have returned hold the same family list and the same error; and
    when no context can fire and the process is alive, every run stops
    after finitely many steps, and where it stops every such call has
    been served by execution [k]. *)
Theorem coalesced_scrapes_share_result dl s s' :
  reachable dl s → worker s = WWoken → rtc step s s' →
  (∀ i m e, i ∈ waitingScrapes s → pc_of s' i = Some (CReturned m e) →
     (dl !! i = Some true ∧ CReturned m e = timed_out)
     ∨ results s' !! length (results s) = Some (mkResult m e))
  ∧ (∀ i j mi ei mj ej,
       i ∈ waitingScrapes s → j ∈ waitingScrapes s →
       dl !! i = Some false → dl !! j = Some false →
       pc_of s' i = Some (CReturned mi ei) → pc_of s' j = Some (CReturned mj ej) →
       mi = mj ∧ ei = ej)
  ∧ (no_deadline dl → crashed s' = false → stuck s' →
     ∀ i, i ∈ waitingScrapes s →
       ∃ res, results s' !! length (results s) = Some res
              ∧ pc_of s' i = Some (CReturned (mfs res) (err res)))
  ∧ (∀ ls s'', run ls s = Some s'' → length ls ≤ measure s).
Proof.
  intros Hreach Hw Hrun.
  pose proof (invariant_reachable dl s Hreach) as Hinv.
  pose proof (invariant_rtc dl s s' Hinv Hrun) as Hinv'.
  assert (∀ i, i ∈ waitingScrapes s → coalesced (length (results s)) i s') as Hco.
  { intros i Hi.
    exact (coalesced_rtc dl _ i s s' Hinv (coalesced_at_wake dl s i Hinv Hw Hi) Hrun). }
  split; [|split; [|split]].
  - intros i m e Hi Hp.
    exact (coalesced_returned dl _ i s' m e Hinv' (Hco i Hi) Hp).
  - intros i j mi ei mj ej Hi Hj Hdi Hdj Hpi Hpj.
    destruct (coalesced_returned dl _ i s' mi ei Hinv' (Hco i Hi) Hpi)
      as [[Hd _]|Hri]; [congruence|].
    destruct (coalesced_returned dl _ j s' mj ej Hinv' (Hco j Hj) Hpj)
      as [[Hd _]|Hrj]; [congruence|].
    rewrite Hri in Hrj. by injection Hrj as -> ->.
  - intros Hno Hlive Hstuck i Hi.
    destruct (coalesced_progress dl _ i s' Hinv' Hno Hlive (Hco i Hi) Hstuck)
      as (ci & Hcalli & resi & Hresi & Hpi).
    exists resi. split; [done|]. unfold pc_of. rewrite Hcalli. simpl.
    by rewrite Hpi.
  - intros ls s'' Hls. apply run_length in Hls. lia.
Qed.

(** *** A sample run: two calls, one execution *)

Definition one_family : list MetricFamily := [mkFamily "x" ["x 1"]].

Definition wake_two : list label :=
  [LPark; LRegister 0; LRegister 1; LNudge 0].

Definition serve_two : list label :=
  [LNudge 1; LCheck; LExec (good one_family); LLock;
   LPick 1; LSend; LPick 0; LSend; LClear; LPark].

Definition two_woken : State :=
  Eval vm_compute in
    default (newExecProxy []) (run wake_two (newExecProxy [false; false])).

Definition two_served : State :=
  Eval vm_compute in default (newExecProxy []) (run serve_two two_woken).


Lemma run_wake_two : run wake_two (newExecProxy [false; false]) = Some two_woken.
Proof. vm_compute. reflexivity. Qed.

Lemma run_serve_two : run serve_two two_woken = Some two_served.
Proof. vm_compute. reflexivity. Qed.

Lemma two_served_stuck : stuck two_served.
Proof.
  intros l. destruct l as [| |x| |i| | |i|i|i|i]; try reflexivity;
    destruct i as [|[|i]]; reflexivity.
Qed.

Lemma two_woken_waiting : 0 ∈ waitingScrapes two_woken ∧ 1 ∈ waitingScrapes two_woken.
Proof.
  split.
  - apply (bool_decide_unpack (0 ∈ waitingScrapes two_woken)). vm_compute. exact I.
  - apply (bool_decide_unpack (1 ∈ waitingScrapes two_woken)). vm_compute. exact I.
Qed.

Lemma coalesced_scrapes_share_result_witness :
  (∃ res, results two_served !! 0 = Some res
          ∧ pc_of two_served 0 = Some (CReturned (mfs res) (err res)))
  ∧ (∃ res, results two_served !! 0 = Some res
            ∧ pc_of two_served 1 = Some (CReturned (mfs res) (err res))).
Proof.
  pose proof (proj1 (proj2 (proj2
    (coalesced_scrapes_share_result [false; false] two_woken two_served
       (run_rtc _ _ _ run_wake_two) eq_refl (run_rtc _ _ _ run_serve_two))))
    (Forall_cons_2 _ _ _ eq_refl (Forall_cons_2 _ _ _ eq_refl (Forall_nil_2 _)))
    eq_refl two_served_stuck) as Hserved.
  split.
  - exact (Hserved 0 (proj1 two_woken_waiting)).
  - exact (Hserved 1 (proj2 two_woken_waiting)).
Defined.

(** *** Where coalescing fails (C1) *)

Lemma stuck_rtc s s' : stuck s → rtc step s s' → s' = s.
Proof.
  intros Hstuck Hrun. destruct Hrun as [|s1 s2 s3 [l Hstep] _]; [done|].
  by rewrite Hstuck in Hstep.
Qed.

(** Call 0 has a deadline, call 1 has none; both are registered when
    the worker wakes. *)
Definition woken_with_deadline : State :=
  Eval vm_compute in
    default (newExecProxy []) (run wake_two (newExecProxy [true; false])).

(** The script runs once and succeeds; the worker takes the mutex for
    the dispatch; the context of call 0 fires; the [range] hands out the
    channel of call 0 first. *)
Definition cancel_in_window : list label :=
  [LNudge 1; LCheck; LExec (good one_family); LLock; LTimeout 0; LPick 0].

Definition starved : State :=
  Eval vm_compute in
    default (newExecProxy []) (run cancel_in_window woken_with_deadline).

(** The script runs once, its output is decoded, and the kill fails. *)
Definition crash_in_window : list label :=
  [LNudge 1; LCheck; LExec kill_fails].

Definition crashed_in_window : State :=
  Eval vm_compute in
    default (newExecProxy []) (run crash_in_window two_woken).

(** C1, at the schedules on which it fails.  In both, two calls are
    registered in the waiter set when the worker wakes, and the script
    runs once.
    In the first, the execution succeeds and its result struct is
    there, but the context of call 0 fires during the dispatch and the
    worker commits to the channel of call 0: the worker waits for call
    0 to receive while it holds the mutex, call 0 waits for the mutex,
    and call 1, which has no deadline and is still in the waiter set
    and in its select, is never handed the result: no goroutine can
    move, so in every later state call 1 is where it was.
    In the second, no context can fire, the kill fails after a good
    decode and the worker panics in [doExec]: there is no result struct
    and neither call has received anything. *)
Theorem coalesced_caller_never_served :
  (run wake_two (newExecProxy [true; false]) = Some woken_with_deadline
   ∧ worker woken_with_deadline = WWoken
   ∧ 0 ∈ waitingScrapes woken_with_deadline
   ∧ 1 ∈ waitingScrapes woken_with_deadline
   ∧ run cancel_in_window woken_with_deadline = Some starved
   ∧ crashed starved = false
   ∧ length (results starved) = 1
   ∧ worker starved = WSending 0 ∅ 0
   ∧ pc_of starved 0 = Some CCancel
   ∧ calls starved !! 1 = Some (mkCall CSelect false)
   ∧ 1 ∈ waitingScrapes starved
   ∧ stuck starved
   ∧ ∀ s', rtc step starved s' → pc_of s' 1 = Some CSelect)
  ∧ (run wake_two (newExecProxy [false; false]) = Some two_woken
     ∧ worker two_woken = WWoken
     ∧ 0 ∈ waitingScrapes two_woken
     ∧ 1 ∈ waitingScrapes two_woken
     ∧ run crash_in_window two_woken = Some crashed_in_window
     ∧ crashed crashed_in_window = true
     ∧ results crashed_in_window = []
     ∧ pc_of crashed_in_window 0 = Some CSelect
     ∧ pc_of crashed_in_window 1 = Some CSelect
     ∧ stuck crashed_in_window).
Proof.
  assert (stuck starved) as Hstuck.
  { intros l. destruct l as [| |x| |i| | |i|i|i|i]; try reflexivity;
      destruct i as [|[|i]]; reflexivity. }
  split.
  - split; [vm_compute; reflexivity|]. split; [reflexivity|].
    split; [apply (bool_decide_unpack (0 ∈ waitingScrapes woken_with_deadline));
            vm_compute; exact I|].
    split; [apply (bool_decide_unpack (1 ∈ waitingScrapes woken_with_deadline));
            vm_compute; exact I|].
    split; [vm_compute; reflexivity|].
    split; [reflexivity|]. split; [reflexivity|]. split; [reflexivity|].
    split; [reflexivity|]. split; [reflexivity|].
    split; [apply (bool_decide_unpack (1 ∈ waitingScrapes starved));
            vm_compute; exact I|].
    split; [exact Hstuck|].
    intros s' Hrun. by rewrite (stuck_rtc _ _ Hstuck Hrun).
  - split; [vm_compute; reflexivity|]. split; [reflexivity|].
    split; [apply (bool_decide_unpack (0 ∈ waitingScrapes two_woken));
            vm_compute; exact I|].
    split; [apply (bool_decide_unpack (1 ∈ waitingScrapes two_woken));
            vm_compute; exact I|].
    split; [vm_compute; reflexivity|].
    split; [reflexivity|]. split; [reflexivity|]. split; [reflexivity|].
    split; [reflexivity|].
    intros l. reflexivity.
Qed.

(** *** Giving up on the context (C3) *)

(** The cancel path, when it gets the mutex: the call's channel leaves
    the waiter set and the call returns no families and the timeout
    error. *)
Lemma cancel_removes_waiter i s s' :
  exec_step (LCancel i) s = Some s' →
  mutexHeld s = false
  ∧ pc_of s' i = Some timed_out
  ∧ i ∉ waitingScrapes s'.
Proof.
  unfold exec_step. destruct (crashed s); [done|].
  destruct (pc_of s i) as [[]|] eqn:Hi; try done.
  destruct (mutexHeld s); [done|]. intros [= <-].
  split; [done|]. rewrite pc_of_set_pc. simpl.
  split; [|set_solver].
  case_decide; [|done]. unfold pc_of in *. simpl.
  by destruct (calls s !! i).
Qed.

(** The cancel path is open as soon as the mutex is free. *)
Lemma cancel_enabled i s :
  crashed s = false → pc_of s i = Some CCancel → mutexHeld s = false →
  is_Some (exec_step (LCancel i) s).
Proof.
  intros Hlive Hp Hfree. unfold exec_step. by rewrite Hlive, Hp, Hfree.
Qed.

(** A call that has returned and is out of the waiter set stays out. *)
Lemma returned_stays_out l i s s' m e :
  exec_step l s = Some s' →
  pc_of s i = Some (CReturned m e) → i ∉ waitingScrapes s →
  pc_of s' i = Some (CReturned m e) ∧ i ∉ waitingScrapes s'.
Proof.
  intros Hstep Hp Hout.
  destruct (pc_of_deadline _ _ _ Hp) as [d Hc].
  split.
  - unfold pc_of. by rewrite (step_returned_stable l s s' i _ m e Hstep Hc eq_refl).
  - step_inv Hstep; norm; try done; set_solver.
Qed.

(** One call with a deadline, one without.  The script runs; the
    worker comes back with the result and takes the mutex; the first
    call's context fires; the [range] hands out the first call's
    channel. *)
Definition cancel_during_dispatch : list label :=
  [LPark; LRegister 0; LNudge 0; LCheck; LExec (good one_family); LLock;
   LTimeout 0; LPick 0].

Definition deadlocked : State :=
  Eval vm_compute in
    default (newExecProxy [])
      (run cancel_during_dispatch (newExecProxy [true; false])).

(** C3, at the schedule on which it fails: the context of call 0 is
    done before any result was delivered, yet the call never returns
    and stays in the waiter set: it waits for the mutex, which the
    worker holds while it waits for call 0 to receive.  Call 1, not yet
    started, cannot even register.  No goroutine can move. *)
Theorem cancel_during_dispatch_deadlocks :
  run cancel_during_dispatch (newExecProxy [true; false]) = Some deadlocked
  ∧ crashed deadlocked = false
  ∧ worker deadlocked = WSending 0 ∅ 0
  ∧ mutexHeld deadlocked = true
  ∧ pc_of deadlocked 0 = Some CCancel
  ∧ 0 ∈ waitingScrapes deadlocked
  ∧ pc_of deadlocked 1 = Some CStart
  ∧ stuck deadlocked.
Proof.
  split; [vm_compute; reflexivity|].
  repeat split.
  intros l. destruct l as [| |x| |i| | |i|i|i|i]; try reflexivity;
    destruct i as [|[|i]]; reflexivity.
Qed.

(** *** Registering, then signalling (C4) *)

(** The signal is sent after the registration: a call about to signal
    is in the waiter set. *)
Lemma registered_before_nudge dl s i :
  reachable dl s → pc_of s i = Some CNudge → i ∈ waitingScrapes s.
Proof.
  intros Hreach Hp.
  eapply inv_registered; [by apply invariant_reachable|done|].
  apply registered_CNudge.
Qed.

(** The signal never blocks, and it reaches the worker only when the
    worker is parked in its receive. *)
Lemma nudge_never_blocks s i :
  crashed s = false → pc_of s i = Some CNudge →
  ∃ s', exec_step (LNudge i) s = Some s'
        ∧ pc_of s' i = Some CSelect
        ∧ worker s' = (if decide (worker s = WParked) then WWoken else worker s).
Proof.
  intros Hlive Hp. unfold exec_step. rewrite Hlive, Hp.
  destruct (pc_of_deadline _ _ _ Hp) as [d Hc].
  case_decide; (eexists; split; [done|]); norm;
    rewrite list_lookup_alter_eq, Hc; done.
Qed.

(** Two calls without deadline.  The first is served; before the worker
    is back in its receive, the second registers and signals; then the
    worker parks. *)
Definition nudge_before_park : list label :=
  [LPark; LRegister 0; LNudge 0; LCheck; LExec (good one_family); LLock;
   LPick 0; LSend; LClear; LRegister 1; LNudge 1; LPark].

Definition lost : State :=
  Eval vm_compute in
    default (newExecProxy [])
      (run nudge_before_park (newExecProxy [false; false])).

(** The same at startup: the only call registers and signals before the
    worker goroutine has reached its receive. *)
Definition nudge_at_startup : list label := [LRegister 0; LNudge 0; LPark].

Definition lost_at_startup : State :=
  Eval vm_compute in
    default (newExecProxy []) (run nudge_at_startup (newExecProxy [false])).

(** C4, at the schedules on which it fails: call 1 (call 0 at startup)
    has registered and then signalled, the signal was dropped because
    the worker was not in its receive, although no execution was
    pending; the worker then parks.  The call is in the waiter set, in
    its final select, and nothing can move: no worker turn will serve
    it. *)
Theorem nudge_before_park_is_lost :
  (run nudge_before_park (newExecProxy [false; false]) = Some lost
   ∧ crashed lost = false ∧ worker lost = WParked
   ∧ pc_of lost 1 = Some CSelect ∧ 1 ∈ waitingScrapes lost
   ∧ length (results lost) = 1 ∧ stuck lost)
  ∧ (run nudge_at_startup (newExecProxy [false]) = Some lost_at_startup
     ∧ crashed lost_at_startup = false ∧ worker lost_at_startup = WParked
     ∧ pc_of lost_at_startup 0 = Some CSelect
     ∧ 0 ∈ waitingScrapes lost_at_startup
     ∧ length (results lost_at_startup) = 0 ∧ stuck lost_at_startup).
Proof.
  split.
  - split; [vm_compute; reflexivity|]. repeat split.
    intros l. destruct l as [| |x| |i| | |i|i|i|i]; try reflexivity;
      destruct i as [|[|i]]; reflexivity.
  - split; [vm_compute; reflexivity|]. repeat split.
    intros l. destruct l as [| |x| |i| | |i|i|i|i]; try reflexivity;
      destruct i as [|i]; reflexivity.
Qed.

End ExecProxy.

(** ** The log line of the failed kill *)
Module KillFailure.
Import Subprocess.

(** C10, at the input on which it fails: decoding succeeds ([derr] is
    nil) and the kill reports an error.  Both workers then ask the nil
    [derr] for its text in the log line of the failed kill: [doExec]
    panics instead of returning, and the turn of the exec-cached worker
    panics instead of going on. *)
Theorem kill_failure_log_dereferences_nil :
  Error None DoExec.emptyWorld
  = (Panicked "invalid memory address or nil pointer dereference",
     DoExec.emptyWorld)
  ∧ (DoExec.doExec DoExec.kill_fails DoExec.emptyWorld).1
    = Panicked "invalid memory address or nil pointer dereference"
  ∧ (ExecCachingProxy.execer_iteration 0 DoExec.kill_fails
       ExecCachingProxy.newExecCachingProxy DoExec.emptyWorld).1
    = Panicked "invalid memory address or nil pointer dereference".
Proof. repeat split. Qed.

End KillFailure.

(** ** [NewMetricReverseProxy]: when it succeeds and what it builds *)
Module MetricProxyFacts.
Import MetricProxy.

#[local] Arguments addBackend : simpl never.

(** What the shim of backend [e] must look like. *)
Definition shim_of (e : Exporter) (rp : rewriteProxy) : Prop :=
  newExporter (exporterType e) = Some (proxy rp)
  ∧ setAdditionalLabels (Labels (GetBaseExporter e))
      (if NoRewrite (GetBaseExporter e) then ∅
       else {[ reverseProxyNameLabel := Name (GetBaseExporter e) ]})
    = inr (labels rp).

(** An item of a type the switch does not know: a backend outside the
    four cases, or an item outside [config.BaseExporter]. *)
Definition unknownItem (it : Item) : Prop :=
  match it with
  | BaseExporterItem e => ¬ knownType e
  | OtherItem => True
  end.

Lemma addBackend_shim e used used' rp :
  addBackend (BaseExporterItem e) used = Returned (inr (used', rp)) →
  shim_of e rp.
Proof.
  unfold addBackend, shim_of.
  destruct (newExporter _) eqn:Hp; [|done].
  case_decide; [done|].
  destruct (setAdditionalLabels _ _) eqn:Hl; [done|].
  by intros [= <- <-].
Qed.

Lemma addBackends_shape es used acc bs :
  addBackends (BaseExporterItem <$> es) used acc = Returned (inr bs) →
  ∃ shims, bs = acc ++ shims ∧ Forall2 shim_of es shims.
Proof.
  revert used acc. induction es as [|e es IH]; intros used acc.
  - simpl. intros [= <-]. exists []. by rewrite app_nil_r.
  - rewrite fmap_cons, addBackends_cons.
    destruct (addBackend (BaseExporterItem e) used)
      as [[err|[used' rp]]|reason] eqn:He; [done| |done].
    intros Hrun. apply IH in Hrun as (shims & -> & Hall).
    exists (rp :: shims). rewrite <- app_assoc. split; [done|].
    constructor; [by eapply addBackend_shim|done].
Qed.

(** What a successful call has seen and built. *)
Lemma NewMetricReverseProxy_built cfg h :
  NewMetricReverseProxy cfg = Returned (Some h, None) →
  ∃ es, Exporters cfg = BaseExporterItem <$> es
        ∧ Forall passes es ∧ NoDup (exporterNames es)
        ∧ metricPath h = Path cfg
        ∧ Forall2 shim_of es (backends h).
Proof.
  unfold NewMetricReverseProxy.
  destruct (addBackends (Exporters cfg) ∅ []) as [[err|bs]|reason] eqn:Hrun;
    [done| |done].
  intros [= <-]. simpl.
  destruct (addBackends_ok _ _ _ _ Hrun) as (es & Hes & Hp & Hnd & _).
  exists es. rewrite Hes in Hrun.
  apply addBackends_shape in Hrun as (shims & -> & Hall). done.
Qed.

(** *** Success, exactly *)

(** X1: [NewMetricReverseProxy] hands back a handler exactly when every
    item implements [config.BaseExporter] and has a type the switch
    knows, the backend names are pairwise distinct and no backend
    carries the reserved key among its additional labels; the path and
    the authentication settings play no part. *)
Theorem construction_succeeds_iff (cfg : ReverseExporter) :
  (∃ h, NewMetricReverseProxy cfg = Returned (Some h, None))
  ↔ ∃ es, Exporters cfg = BaseExporterItem <$> es
          ∧ Forall knownType es
          ∧ NoDup (exporterNames es)
          ∧ Forall (λ e, ¬ overridesName e) es.
Proof.
  split.
  - intros [h Hh].
    apply NewMetricReverseProxy_built in Hh as (es & Hes & Hp & Hnd & _).
    exists es. split; [done|]. split; [|split; [done|]].
    + eapply Forall_impl; [done|]. by intros e [? ?].
    + eapply Forall_impl; [done|]. by intros e [? ?].
  - intros (es & Hes & Hk & Hnd & Hc). unfold NewMetricReverseProxy.
    rewrite Hes.
    destruct (addBackends_good es ∅ []) as [bs ->];
      [|done| |by eexists].
    + apply Forall_forall. intros e He. split.
      * by eapply Forall_forall in Hk.
      * by eapply (proj1 (Forall_forall _ _) Hc).
    + intros n _. apply not_elem_of_empty.
Qed.

(** *** A sample endpoint that is built *)

Definition backend_b : Exporter :=
  mkExporter ExecExporterConfig (mkBase "b" true [("region", "eu")]).

Definition two_backends : ReverseExporter :=
  mkReverseExporter "/metrics"
    [BaseExporterItem backend_a; BaseExporterItem backend_b]
    (AuthTypeOther "digest") "/etc/htpasswd".

Definition two_backends_handler : ReverseProxyEndpoint :=
  Eval vm_compute in
    match NewMetricReverseProxy two_backends with
    | Returned (Some h, _) => h
    | _ => mkEndpoint "/" [] false
    end.

Lemma two_backends_built :
  NewMetricReverseProxy two_backends = Returned (Some two_backends_handler, None).
Proof. vm_compute. reflexivity. Qed.

(** *** What a shim carries *)

Lemma setAdditionalLabels_lookup ls acc m :
  setAdditionalLabels ls acc = inr m →
  (∀ k, k ∉ ls.*1 → m !! k = acc !! k)
  ∧ (NoDup ls.*1 → ∀ k v, (k, v) ∈ ls → m !! k = Some v).
Proof.
  revert acc. induction ls as [|[k0 v0] ls IH]; intros acc; simpl.
  - intros [= <-]. split; [done|]. intros _ k v Hin. by apply elem_of_nil in Hin.
  - case_decide as Hk0; [done|]. intros Hrun.
    destruct (IH _ Hrun) as [Hout Hin]. split.
    + intros k Hk. apply not_elem_of_cons in Hk as [Hne Hk].
      rewrite (Hout k Hk). by rewrite lookup_insert_ne.
    + intros Hnd k v Hkv. apply NoDup_cons in Hnd as [Hfresh Hnd].
      apply elem_of_cons in Hkv as [Heq|Hkv].
      * injection Heq as -> ->. rewrite (Hout k0 Hfresh).
        by rewrite lookup_insert_eq.
      * by apply Hin.
Qed.

Lemma shim_of_labels e rp :
  shim_of e rp → ¬ overridesName e →
  labels rp !! reverseProxyNameLabel
  = (if NoRewrite (GetBaseExporter e) then None
     else Some (Name (GetBaseExporter e)))
  ∧ (NoDup (Labels (GetBaseExporter e)).*1 →
     ∀ k v, (k, v) ∈ Labels (GetBaseExporter e) → labels rp !! k = Some v)
  ∧ (∀ k, k ≠ reverseProxyNameLabel → k ∉ (Labels (GetBaseExporter e)).*1 →
       labels rp !! k = None).
Proof.
  intros [_ Hl] Hc. apply setAdditionalLabels_lookup in Hl as [Hout Hin].
  split; [|split; [done|]].
  - rewrite (Hout _ Hc). destruct (NoRewrite _); [done|].
    by rewrite lookup_singleton_eq.
  - intros k Hk Hnin. rewrite (Hout k Hnin). destruct (NoRewrite _); [done|].
    by rewrite lookup_singleton_ne.
Qed.

(** X2: The shims of a handler stand in the order in which the backends
    are declared, one per item, each in front of the proxy that the
    type switch picks for its configuration type. *)
Theorem shims_in_declaration_order (cfg : ReverseExporter)
    (h : ReverseProxyEndpoint) :
  NewMetricReverseProxy cfg = Returned (Some h, None) →
  metricPath h = Path cfg
  ∧ ∃ es, Exporters cfg = BaseExporterItem <$> es
          ∧ newExporter ∘ exporterType <$> es = Some ∘ proxy <$> backends h.
Proof.
  intros Hh.
  apply NewMetricReverseProxy_built in Hh as (es & Hes & _ & _ & Hpath & Hall).
  split; [done|]. exists es. split; [done|]. clear Hes Hpath.
  induction Hall as [|e rp es' shims [Hp _] _ IH]; [done|].
  rewrite !fmap_cons. simpl. by rewrite Hp, IH.
Qed.

Lemma shims_in_declaration_order_witness :
  metricPath two_backends_handler = "/metrics"
  ∧ ∃ es, Exporters two_backends = BaseExporterItem <$> es
          ∧ newExporter ∘ exporterType <$> es
            = Some ∘ proxy <$> backends two_backends_handler.
Proof.
  exact (shims_in_declaration_order two_backends two_backends_handler
           two_backends_built).
Defined.

(** X3: The label set of each shim: the name label is there exactly when
    rewriting is on and then holds the backend's name; every additional
    label of the backend is there with its configured value; nothing
    else is. *)
Theorem shim_label_set (cfg : ReverseExporter) (h : ReverseProxyEndpoint)
    (i : nat) (e : Exporter) (rp : rewriteProxy) :
  NewMetricReverseProxy cfg = Returned (Some h, None) →
  Exporters cfg !! i = Some (BaseExporterItem e) → backends h !! i = Some rp →
  labels rp !! reverseProxyNameLabel
  = (if NoRewrite (GetBaseExporter e) then None
     else Some (Name (GetBaseExporter e)))
  ∧ (NoDup (Labels (GetBaseExporter e)).*1 →
     ∀ k v, (k, v) ∈ Labels (GetBaseExporter e) → labels rp !! k = Some v)
  ∧ (∀ k, k ≠ reverseProxyNameLabel → k ∉ (Labels (GetBaseExporter e)).*1 →
       labels rp !! k = None).
Proof.
  intros Hh He Hrp.
  apply NewMetricReverseProxy_built in Hh as (es & Hes & Hp & _ & _ & Hall).
  rewrite Hes, list_lookup_fmap in He.
  destruct (es !! i) as [e'|] eqn:He'; [|done]. injection He as ->.
  apply shim_of_labels.
  - by eapply Forall2_lookup_lr.
  - rewrite Forall_lookup in Hp. by destruct (Hp i e He').
Qed.

Lemma shim_label_set_witness :
  labels <$> backends two_backends_handler !! 1
  = Some ({[ "region" := "eu" ]} : gmap string string).
Proof.
  destruct (backends two_backends_handler !! 1) as [rp|] eqn:Hrp; [|done].
  destruct (shim_label_set two_backends two_backends_handler 1 backend_b rp
              two_backends_built eq_refl Hrp) as (Hname & Hin & Hout).
  simpl. f_equal. apply map_eq. intros k.
  destruct (decide (k = "region")) as [->|Hne].
  - rewrite lookup_singleton_eq. apply Hin.
    + simpl. apply NoDup_singleton.
    + simpl. apply list_elem_of_here.
  - rewrite lookup_singleton_ne by done.
    destruct (decide (k = reverseProxyNameLabel)) as [->|Hk]; [exact Hname|].
    apply Hout; [done|]. simpl. intros Hin'.
    apply list_elem_of_singleton in Hin'. done.
Defined.

(** *** Items the switch does not know *)

(** X4: An item whose type the switch does not know keeps
    [NewMetricReverseProxy] from returning a handler.  When the items
    before the first such item are backends that pass every check, a
    backend of an unknown type that implements [config.BaseExporter]
    gives [ErrUnknownExporterType], whatever its name and labels and
    whatever follows it, and an item outside [config.BaseExporter], the
    nil item included, makes the call panic at the type assertion that
    precedes the switch. *)
Theorem unknown_type_rejected (cfg : ReverseExporter) :
  Exists unknownItem (Exporters cfg) →
  (∀ h err, NewMetricReverseProxy cfg ≠ Returned (Some h, err))
  ∧ (∀ pre it post,
       Exporters cfg = (BaseExporterItem <$> pre) ++ it :: post →
       unknownItem it →
       Forall passes pre → NoDup (exporterNames pre) →
       NewMetricReverseProxy cfg
       = match it with
         | BaseExporterItem _ => Returned (None, Some ErrUnknownExporterType)
         | OtherItem => Panicked interfaceConversion
         end).
Proof.
  intros Hex. split.
  - apply NewMetricReverseProxy_no_handler. intros (es & Hes & Hp & _).
    rewrite Hes in Hex. apply Exists_exists in Hex as (it & Hit & Hun).
    apply list_elem_of_fmap in Hit as (e & -> & He).
    rewrite Forall_forall in Hp. destruct (Hp e He) as [Hk _]. by apply Hun.
  - intros pre it post Hcfg Hun Hp Hnd.
    assert (fails (exporterNames pre) it) as Hf.
    { destruct it as [e|]; [by left|done]. }
    pose proof (NewMetricReverseProxy_stops cfg pre it post Hcfg Hp Hnd Hf) as Hstop.
    destruct it as [e|]; [|done]. simpl in Hun.
    destruct Hstop as [[_ ->]|[[Hk _]|[Hk _]]]; done.
Qed.

Definition backend_other : Exporter :=
  mkExporter OtherExporterConfig (mkBase "a" false [("exported_instance", "x")]).

Definition endpoint_with_unknown (it : Item) : ReverseExporter :=
  mkReverseExporter "/metrics"
    [BaseExporterItem backend_a; it; BaseExporterItem backend_a]
    AuthTypeNone "/etc/htpasswd".

Lemma unknown_type_rejected_witness :
  NewMetricReverseProxy (endpoint_with_unknown (BaseExporterItem backend_other))
  = Returned (None, Some ErrUnknownExporterType)
  ∧ NewMetricReverseProxy (endpoint_with_unknown OtherItem)
    = Panicked interfaceConversion.
Proof.
  split.
  - refine (proj2 (unknown_type_rejected
                     (endpoint_with_unknown (BaseExporterItem backend_other)) _)
              [backend_a] (BaseExporterItem backend_other)
              [BaseExporterItem backend_a] eq_refl _ _ _).
    + apply Exists_cons_tl, Exists_cons_hd. by intros [p Hp].
    + by intros [p Hp].
    + repeat constructor; [by eexists|]. unfold overridesName. simpl.
      apply not_elem_of_nil.
    + simpl. apply NoDup_singleton.
  - refine (proj2 (unknown_type_rejected (endpoint_with_unknown OtherItem) _)
              [backend_a] OtherItem [BaseExporterItem backend_a] eq_refl _ _ _).
    + apply Exists_cons_tl, Exists_cons_hd. exact I.
    + exact I.
    + repeat constructor; [by eexists|]. unfold overridesName. simpl.
      apply not_elem_of_nil.
    + simpl. apply NoDup_singleton.
Defined.

(** X5: The outcome of the construction depends on the items alone: the
    path, the authentication type and the htpasswd file never make it
    return an error or panic.  The handler is wrapped in basic
    authentication exactly when the authentication type is [basic]; any
    other type, known or not, gives the bare handler. *)
Theorem auth_settings_never_fail (cfg : ReverseExporter) :
  (∀ cfg', Exporters cfg' = Exporters cfg →
     match NewMetricReverseProxy cfg', NewMetricReverseProxy cfg with
     | Returned (h', err'), Returned (h, err) =>
         err' = err ∧ backends <$> h' = backends <$> h
     | Panicked reason', Panicked reason => reason' = reason
     | _, _ => False
     end)
  ∧ (∀ h, NewMetricReverseProxy cfg = Returned (Some h, None) →
       (basicAuth h = true ↔ authType cfg = AuthTypeBasic)).
Proof.
  unfold NewMetricReverseProxy. split.
  - intros cfg' ->. by destruct (addBackends (Exporters cfg) ∅ []) as [[?|?]|?].
  - intros h. destruct (addBackends (Exporters cfg) ∅ []) as [[?|?]|?];
      [done| |done].
    intros [= <-]. simpl. by destruct (authType cfg).
Qed.

End MetricProxyFacts.

(** ** [uniListen]: where the server listens *)
Module Listener.

(** [s] without its prefix [sep], when it has it. *)
Fixpoint strip (sep s : string) : option string :=
  match sep, s with
  | EmptyString, _ => Some s
  | String a sep', String b s' => if decide (a = b) then strip sep' s' else None
  | String _ _, EmptyString => None
  end.

(** [s] around the first occurrence of [sep]. *)
Fixpoint cut (sep s : string) : option (string * string) :=
  match strip sep s with
  | Some rest => Some (EmptyString, rest)
  | None =>
      match s with
      | EmptyString => None
      | String c s' => (λ p, (String c p.1, p.2)) <$> cut sep s'
      end
  end.

(** [strings.SplitN(s, sep, 2)] for a separator that is not empty: the
    string itself when [sep] does not occur, else what stands before
    and after its first occurrence. *)
Definition SplitN2 (s sep : string) : list string :=
  match cut sep s with
  | Some (before, after) => [before; after]
  | None => [s]
  end.

(** What [uniListen] asks of the operating system, in program order. *)
Inductive Call : Type :=
| MkdirAll (path : string) (perm : nat)
| Remove (path : string)
| Listen (network address : string).

#[global] Instance Call_eq_dec : EqDecision Call.
Proof. solve_decision. Defined.

Section UniListen.

(** [filepath.Dir], of the Go library. *)
Variable Dir : string → string.

(** The calls [uniListen] makes; the last one is the [net.Listen] whose
    result it returns.  The results of [MkdirAll] and [Remove] are
    dropped by the code. *)
Definition uniListen (addr : string) : list Call :=
  match SplitN2 addr "://" with
  | scheme :: rest :: _ =>
      if bool_decide (scheme ∈ ["unix"; "unixpacket"])
      then [MkdirAll (Dir rest) 448; Remove rest; Listen scheme rest]
      else if bool_decide (scheme ∈ ["tcp"; "tcp4"; "tcp6"])
      then [Listen scheme rest]
      else [Listen "tcp" addr]
  | _ => [Listen "tcp" addr]
  end.

End UniListen.

(** The schemes [uniListen] knows. *)
Definition schemes : list string := ["unix"; "unixpacket"; "tcp"; "tcp4"; "tcp6"].

Lemma strip_Some sep s rest : strip sep s = Some rest → s = sep +:+ rest.
Proof.
  revert s. induction sep as [|a sep IH]; intros [|b s]; simpl; try done.
  - by intros [= <-].
  - by intros [= <-].
  - case_decide; [|done]. subst b. intros Hs. by rewrite (IH s Hs).
Qed.

Lemma cut_Some sep s before after :
  cut sep s = Some (before, after) → s = before +:+ sep +:+ after.
Proof.
  revert before. induction s as [|c s IH]; intros before; simpl.
  - destruct (strip sep EmptyString) as [rest|] eqn:Hs; [|done].
    intros [= <- <-]. by apply strip_Some in Hs.
  - destruct (strip sep (String c s)) as [rest|] eqn:Hs.
    + intros [= <- <-]. by apply strip_Some in Hs.
    + destruct (cut sep s) as [[b a]|]; [|done]. simpl. intros [= <- <-].
      by rewrite (IH b eq_refl).
Qed.

(** An address that begins with a known scheme and [://] is cut right
    after the scheme, whatever follows. *)
Lemma cut_scheme scheme rest :
  scheme ∈ schemes → cut "://" (scheme +:+ "://" +:+ rest) = Some (scheme, rest).
Proof.
  unfold schemes. rewrite !elem_of_cons, elem_of_nil.
  intros [->|[->|[->|[->|[->|[]]]]]]; reflexivity.
Qed.

(** X6: [uniListen] by the shape of the address.  An address made of one
    of the five schemes, [://] and a rest is listened on with the scheme
    as network and the rest as address; for [unix] and [unixpacket] the
    directory of the socket is made and the socket path removed first,
    for the [tcp] schemes nothing is touched.  Every other address,
    with no scheme or with one [uniListen] does not know, is listened on
    whole, scheme included, as a [tcp] address, and nothing is touched. *)
Theorem uniListen_dispatch (Dir : string → string) (addr : string) :
  (∃ scheme rest,
     scheme ∈ schemes ∧ addr = scheme +:+ "://" +:+ rest
     ∧ uniListen Dir addr
       = (if bool_decide (scheme ∈ ["unix"; "unixpacket"])
          then [MkdirAll (Dir rest) 448; Remove rest]
          else [])
         ++ [Listen scheme rest])
  ∨ ((∀ scheme rest, scheme ∈ schemes → addr ≠ scheme +:+ "://" +:+ rest)
     ∧ uniListen Dir addr = [Listen "tcp" addr]).
Proof.
  unfold uniListen, SplitN2.
  destruct (cut "://" addr) as [[scheme rest]|] eqn:Hcut.
  - pose proof (cut_Some _ _ _ _ Hcut) as Haddr.
    destruct (bool_decide (scheme ∈ ["unix"; "unixpacket"])) eqn:Hunix.
    + left. exists scheme, rest. rewrite Hunix. split; [|done].
      apply bool_decide_eq_true in Hunix. unfold schemes. set_solver.
    + destruct (bool_decide (scheme ∈ ["tcp"; "tcp4"; "tcp6"])) eqn:Htcp.
      * left. exists scheme, rest. rewrite Hunix. split; [|done].
        apply bool_decide_eq_true in Htcp. unfold schemes. set_solver.
      * right. split; [|done]. intros scheme' rest' Hin ->.
        rewrite (cut_scheme scheme' rest' Hin) in Hcut. injection Hcut as -> ->.
        apply bool_decide_eq_false in Hunix, Htcp. unfold schemes in Hin.
        set_solver.
  - right. split; [|done]. intros scheme rest Hin ->.
    by rewrite (cut_scheme scheme rest Hin) in Hcut.
Qed.

End Listener.

(** ** [realMain]: start-up and shutdown *)
Module Main.
Import MetricProxy Listener.

(** [AppConfig]. *)
Record AppConfig : Type := mkAppConfig {
  ConfigFile : string;
  ContextPath : string;
  StaticProxy : string;
  ListenAddr : string;
  TLSCert : string;
  TLSKey : string;
  TLSAuthCA : string;
  LogLevel : string;
  PrintVersion : bool
}.

(** [tls.ClientAuthType], as far as the program uses it. *)
Inductive ClientAuthType : Type :=
| NoClientCert
| RequireAndVerifyClientCert.

(** [tls.Config], as far as the program sets it; [ClientCAs] is the
    pool, named by the PEM text it was filled from. *)
Record tlsConfig : Type := mkTLS {
  ClientAuth : ClientAuthType;
  ClientCAs : string;
  PreferServerCipherSuites : bool;
  MinVersion : nat
}.

(** [tls.VersionTLS12]. *)
Definition VersionTLS12 : nat := 771.

(** The two errors of [tlsAuthConfig]. *)
Inductive tlsError : Type :=
| UnableToReadCACert (caCert : string) (cause : error)
| UnableToAddCertificate.

(** One registration with the router: method, path, handler (a Go
    interface value, so possibly nil). *)
Record Route : Type := mkRoute {
  method : string;
  route : string;
  handler : option ReverseProxyEndpoint
}.

(** How the process ends: [realMain] returns a code, a [Fatal] log line
    exits, or a goroutine panics. *)
Inductive Termination : Type :=
| Exit (code : nat)
| Fatal (msg : string)
| Panic (reason : string).

(** What the final select of [realMain] receives. *)
Inductive Wake : Type :=
| Signal (sig : string)
| ListenerStopped (listenerErr : goerror).

(** What the process does to the outside before it waits. *)
Inductive Action : Type :=
| System (c : Call)
| Serve (routes : list Route)
| ServeTLS (routes : list Route) (cfg : tlsConfig) (certFile keyFile : string).

Section RealMain.

#[local] Unset Default Proof Using.

(** The collaborators of [realMain] that live outside the files at
    hand: the configuration loader, [filepath.Join] and [filepath.Dir],
    the routes [api.NewAPIv1] installs, whether the router accepts one
    more path (it panics otherwise), [net.Listen], [ioutil.ReadFile] and
    [AppendCertsFromPEM]. *)
Variable LoadFromFile : string → error + list ReverseExporter.
Variable Join : string → string → string.
Variable Dir : string → string.
Variable NewAPIv1 : list Route.
Variable accepts : list Route → string → bool.
Variable net_Listen : string → string → goerror.
Variable ReadFile : string → error + string.
Variable AppendCertsFromPEM : string → bool.

(** [APISettings.WrapPath]. *)
Definition WrapPath (contextPath path : string) : string := Join contextPath path.

(** [tlsAuthConfig]. *)
Definition tlsAuthConfig (caCert : string) : tlsError + tlsConfig :=
  match ReadFile caCert with
  | inl err => inl (UnableToReadCACert caCert err)
  | inr certBytes =>
      if AppendCertsFromPEM certBytes
      then inr (mkTLS RequireAndVerifyClientCert certBytes true VersionTLS12)
      else inl UnableToAddCertificate
  end.

(** The loop of [realMain] over the configured endpoints. *)
Fixpoint initPaths (contextPath : string) (rps : list ReverseExporter)
    (initializedPaths : gset string) (router : list Route)
    : Termination + list Route :=
  match rps with
  | [] => inr router
  | rp :: rest =>
      if decide (Path rp = EmptyString) then
        inl (Fatal "Blank exporter paths are not allowed.")
      else if decide (Path rp ∈ initializedPaths) then
        inl (Fatal "Exporter paths must be unique")
      else
        match NewMetricReverseProxy rp with
        | Panicked reason => inl (Panic reason)
        | Returned (_, Some perr) =>
            inl (Fatal "Error initializing reverse proxy for path")
        | Returned (proxyHandler, None) =>
            if accepts router (WrapPath contextPath (Path rp))
            then initPaths contextPath rest ({[ Path rp ]} ∪ initializedPaths)
                   (router ++ [mkRoute "GET" (WrapPath contextPath (Path rp))
                                 proxyHandler])
            else inl (Panic "router: path cannot be registered")
        end
  end.

(** The last call of [uniListen] is the [net.Listen] it returns. *)
Definition listen_result (calls : list Call) : goerror :=
  match last calls with
  | Some (Listen network address) => net_Listen network address
  | _ => None
  end.

(** What happens once the listener is open. *)
Definition serve (appConfig : AppConfig) (router : list Route) (wake : Wake)
    : Termination * list Action :=
  let wait (served : Action) :=
    match wake with
    | Signal _ => (Exit 0, [served])
    | ListenerStopped _ => (Fatal "Terminating due to listener shutdown", [served])
    end in
  if decide (TLSCert appConfig ≠ EmptyString ∧ TLSKey appConfig ≠ EmptyString) then
    let TLSConfig : (Termination + option tlsConfig) :=
      if decide (TLSAuthCA appConfig ≠ EmptyString) then
        match tlsAuthConfig (TLSAuthCA appConfig) with
        | inl _ => inl (Exit 1)
        | inr tlsConfig => inr (Some tlsConfig)
        end
      else inr None in
    match TLSConfig with
    | inl t => (t, [])
    | inr None => (Panic "invalid memory address or nil pointer dereference", [])
    | inr (Some cfg) =>
        wait (ServeTLS router
                (mkTLS (ClientAuth cfg) (ClientCAs cfg)
                   (PreferServerCipherSuites cfg) VersionTLS12)
                (TLSCert appConfig) (TLSKey appConfig))
    end
  else wait (Serve router).

(** [realMain] up to the open listener: the router and the calls made,
    or the way the process ended. *)
Definition startup (appConfig : AppConfig)
    : (Termination * list Action) + (list Route * list Call) :=
  if decide (ConfigFile appConfig = EmptyString) then
    inl (Fatal "No app config specified.", [])
  else
    match LoadFromFile (ConfigFile appConfig) with
    | inl err => inl (Fatal "Could not parse configuration file", [])
    | inr reverseExporters =>
        match initPaths (ContextPath appConfig) reverseExporters ∅ NewAPIv1 with
        | inl t => inl (t, [])
        | inr router =>
            let calls := uniListen Dir (ListenAddr appConfig) in
            match listen_result calls with
            | Some err =>
                inl (Fatal "Startup failed for a listener", System <$> calls)
            | None => inr (router, calls)
            end
        end
    end.

(** [realMain]. *)
Definition realMain (appConfig : AppConfig) (wake : Wake)
    : Termination * list Action :=
  match startup appConfig with
  | inl ended => ended
  | inr (router, calls) =>
      let '(t, served) := serve appConfig router wake in
      (t, (System <$> calls) ++ served)
  end.

(** The route [realMain] registers for one endpoint. *)
Definition route_of (contextPath : string) (rp : ReverseExporter) : Route :=
  mkRoute "GET" (WrapPath contextPath (Path rp))
    match NewMetricReverseProxy rp with
    | Returned (proxyHandler, _) => proxyHandler
    | Panicked _ => None
    end.

Definition constructs (rp : ReverseExporter) : Prop :=
  ∃ h, NewMetricReverseProxy rp = Returned (Some h, None).

Definition serves (a : Action) : Prop :=
  match a with
  | System _ => False
  | Serve _ | ServeTLS _ _ _ _ => True
  end.

Definition routes_served (a : Action) : list Route :=
  match a with
  | System _ => []
  | Serve routes | ServeTLS routes _ _ _ => routes
  end.

(** *** The registry *)

Lemma NewMetricReverseProxy_result rp h :
  NewMetricReverseProxy rp = Returned (h, None) → ∃ e, h = Some e.
Proof.
  unfold NewMetricReverseProxy.
  destruct (addBackends _ _ _) as [[err|bs]|reason]; [done| |done].
  intros [= <-]. by eexists.
Qed.

Lemma initPaths_ok ctx rps initialized router router' :
  initPaths ctx rps initialized router = inr router' →
  Forall (λ rp, Path rp ≠ EmptyString) rps
  ∧ NoDup (Path <$> rps)
  ∧ (∀ p, p ∈ Path <$> rps → p ∉ initialized)
  ∧ Forall constructs rps
  ∧ router' = router ++ (route_of ctx <$> rps).
Proof.
  revert initialized router. induction rps as [|rp rps IH];
    intros initialized router; simpl.
  - intros [= <-]. rewrite app_nil_r. repeat split; try constructor.
    intros p Hp. by apply elem_of_nil in Hp.
  - case_decide as Hblank; [done|]. case_decide as Hdup; [done|].
    destruct (NewMetricReverseProxy rp) as [[h [perr|]]|reason] eqn:Hnew;
      [done| |done].
    destruct (accepts router _); [|done]. intros Hrest.
    apply IH in Hrest as (Hnb & Hnd & Hout & Hcs & ->).
    destruct (NewMetricReverseProxy_result rp h Hnew) as [e ->].
    repeat split.
    + by constructor.
    + constructor; [|done]. intros Hin. apply Hout in Hin. set_solver.
    + intros p Hp. apply elem_of_cons in Hp as [->|Hp]; [done|].
      apply Hout in Hp. set_solver.
    + constructor; [by exists e|done].
    + rewrite <- app_assoc. simpl. unfold route_of at 2. by rewrite Hnew.
Qed.

Lemma initPaths_failure ctx rps initialized router t :
  initPaths ctx rps initialized router = inl t →
  ∃ msg, t = Fatal msg ∨ t = Panic msg.
Proof.
  revert initialized router. induction rps as [|rp rps IH];
    intros initialized router; simpl; [done|].
  case_decide; [intros [= <-]; eauto|]. case_decide; [intros [= <-]; eauto|].
  destruct (NewMetricReverseProxy rp) as [[h [perr|]]|reason];
    [intros [= <-]; eauto| |intros [= <-]; eauto].
  destruct (accepts router _); [apply IH|intros [= <-]; eauto].
Qed.

Lemma serve_serves appConfig router wake :
  Forall (λ a, serves a ∧ routes_served a = router) (serve appConfig router wake).2.
Proof.
  unfold serve. case_decide.
  - case_decide.
    + destruct (tlsAuthConfig _) as [e|cfg]; simpl; [constructor|].
      destruct wake; repeat constructor.
    + constructor.
  - destruct wake; repeat constructor.
Qed.

Lemma startup_ok appConfig router calls :
  startup appConfig = inr (router, calls) →
  ∃ rps,
    ConfigFile appConfig ≠ EmptyString
    ∧ LoadFromFile (ConfigFile appConfig) = inr rps
    ∧ Forall (λ rp, Path rp ≠ EmptyString) rps
    ∧ NoDup (Path <$> rps)
    ∧ Forall constructs rps
    ∧ router = NewAPIv1 ++ (route_of (ContextPath appConfig) <$> rps)
    ∧ calls = uniListen Dir (ListenAddr appConfig).
Proof.
  unfold startup. case_decide as Hfile; [done|].
  destruct (LoadFromFile _) as [err|rps] eqn:Hload; [done|].
  destruct (initPaths _ _ _ _) as [t|router'] eqn:Hinit; [done|].
  destruct (listen_result _); [done|]. intros [= <- <-].
  apply initPaths_ok in Hinit as (Hnb & Hnd & _ & Hcs & ->).
  exists rps. done.
Qed.

Lemma startup_failed appConfig t acts :
  startup appConfig = inl (t, acts) →
  (∃ msg, t = Fatal msg ∨ t = Panic msg) ∧ Forall (λ a, ¬ serves a) acts.
Proof.
  unfold startup. case_decide as Hfile; [intros [= <- <-]; eauto|].
  destruct (LoadFromFile _) as [err|rps] eqn:Hload; [intros [= <- <-]; eauto|].
  destruct (initPaths _ _ _ _) as [t'|router'] eqn:Hinit.
  - intros [= <- <-]. split; [by eapply initPaths_failure|constructor].
  - destruct (listen_result _); [|done]. intros [= <- <-]. split; [eauto|].
    apply Forall_fmap, Forall_forall. by intros c _ Hc.
Qed.

(** X7: The endpoints are registered all or not at all.  Whenever
    [realMain] serves, the configuration file was named and loaded,
    every endpoint path is non-blank, the paths are pairwise distinct,
    every endpoint was constructed, and the router that serves holds
    the routes of the API followed by one [GET] route per endpoint, in
    the order of the configuration, each at the wrapped path of its
    endpoint.  A blank or repeated path, or an endpoint that cannot be
    constructed, therefore keeps the server from serving anything. *)
Theorem endpoints_registered_all_or_nothing appConfig wake a :
  a ∈ (realMain appConfig wake).2 → serves a →
  ∃ rps,
    ConfigFile appConfig ≠ EmptyString
    ∧ LoadFromFile (ConfigFile appConfig) = inr rps
    ∧ Forall (λ rp, Path rp ≠ EmptyString) rps
    ∧ NoDup (Path <$> rps)
    ∧ Forall constructs rps
    ∧ routes_served a
      = NewAPIv1 ++ (route_of (ContextPath appConfig) <$> rps).
Proof.
  unfold realMain.
  destruct (startup appConfig) as [[t acts]|[router calls]] eqn:Hstart.
  - simpl. intros Ha Hs. apply startup_failed in Hstart as [_ Hno].
    rewrite Forall_forall in Hno. by destruct (Hno a Ha).
  - pose proof (serve_serves appConfig router wake) as Hserved.
    destruct (serve appConfig router wake) as [t served]. simpl in *.
    intros Ha Hs. apply elem_of_app in Ha as [Ha|Ha].
    + apply list_elem_of_fmap in Ha as (c & -> & _). done.
    + rewrite Forall_forall in Hserved. destruct (Hserved a Ha) as [_ ->].
      apply startup_ok in Hstart as (rps & ? & ? & ? & ? & ? & ? & ?).
      exists rps. done.
Qed.

(** *** Serving *)

(** How [realMain] ends when it was woken while serving [served]. *)
Definition woken (wake : Wake) (calls : list Call) (served : Action)
    : Termination * list Action :=
  (match wake with
   | Signal _ => Exit 0
   | ListenerStopped _ => Fatal "Terminating due to listener shutdown"
   end,
   (System <$> calls) ++ [served]).

(** X8: Once the listener is open, the TLS flags decide.  Without a
    certificate or without a key the server serves plain HTTP.  With
    both and no client CA the process panics on the nil TLS
    configuration of the server before it serves.  With both and a
    client CA that cannot be read or holds no certificate, [realMain]
    returns 1 without serving.  With both and a good client CA the
    server serves TLS, requires and verifies client certificates
    against that CA and accepts no version below TLS 1.2. *)
Theorem serving_mode appConfig wake router calls :
  startup appConfig = inr (router, calls) →
  (TLSCert appConfig = EmptyString ∨ TLSKey appConfig = EmptyString →
   realMain appConfig wake = woken wake calls (Serve router))
  ∧ (TLSCert appConfig ≠ EmptyString → TLSKey appConfig ≠ EmptyString →
     (TLSAuthCA appConfig = EmptyString →
      realMain appConfig wake
      = (Panic "invalid memory address or nil pointer dereference",
         System <$> calls))
     ∧ (TLSAuthCA appConfig ≠ EmptyString →
        (∀ e, tlsAuthConfig (TLSAuthCA appConfig) = inl e →
           realMain appConfig wake = (Exit 1, System <$> calls))
        ∧ (∀ pem, ReadFile (TLSAuthCA appConfig) = inr pem →
             AppendCertsFromPEM pem = true →
             realMain appConfig wake
             = woken wake calls
                 (ServeTLS router
                    (mkTLS RequireAndVerifyClientCert pem true VersionTLS12)
                    (TLSCert appConfig) (TLSKey appConfig))))).
Proof.
  intros Hstart. unfold realMain, serve, woken. rewrite Hstart. split.
  - intros Hplain. case_decide as Htls; [naive_solver|]. by destruct wake.
  - intros Hcert Hkey. case_decide as Htls; [|naive_solver]. split.
    + intros HCA. case_decide; [done|]. by rewrite app_nil_r.
    + intros HCA. case_decide; [|done]. split.
      * intros e ->. by rewrite app_nil_r.
      * intros pem Hpem Hok. unfold tlsAuthConfig. rewrite Hpem, Hok. simpl.
        by destruct wake.
Qed.

(** X9: [realMain] returns 0 exactly when it was serving and a signal
    arrived. *)
Theorem exit_zero_iff_signal_while_serving appConfig wake :
  (realMain appConfig wake).1 = Exit 0
  ↔ (∃ sig, wake = Signal sig) ∧ Exists serves (realMain appConfig wake).2.
Proof.
  unfold realMain.
  destruct (startup appConfig) as [[t acts]|[router calls]] eqn:Hstart.
  - apply startup_failed in Hstart as [[msg [-> | ->]] Hno]; simpl;
      (split; [done|]); intros [_ Hex];
      apply Exists_exists in Hex as (a & Ha & Hs);
      rewrite Forall_forall in Hno; by destruct (Hno a Ha).
  - assert (Forall (λ a, ¬ serves a) (System <$> calls)) as Hcalls.
    { apply Forall_fmap, Forall_forall. by intros c _ Hc. }
    unfold serve. case_decide as Htls.
    + case_decide as HCA.
      * destruct (tlsAuthConfig _) as [e|cfg]; simpl.
        -- split; [done|]. intros [_ Hex]. rewrite app_nil_r in Hex.
           apply Exists_exists in Hex as (a & Ha & Hs).
           rewrite Forall_forall in Hcalls. by destruct (Hcalls a Ha).
        -- destruct wake as [sig|e]; simpl.
           ++ split; [|done]. intros _. split; [by eexists|].
              apply Exists_app. right. by constructor.
           ++ split; [done|]. by intros [[sig Hsig] _].
      * simpl. split; [done|]. intros [_ Hex]. rewrite app_nil_r in Hex.
        apply Exists_exists in Hex as (a & Ha & Hs).
        rewrite Forall_forall in Hcalls. by destruct (Hcalls a Ha).
    + destruct wake as [sig|e]; simpl.
      * split; [|done]. intros _. split; [by eexists|].
        apply Exists_app. right. by constructor.
      * split; [done|]. by intros [[sig Hsig] _].
Qed.

End RealMain.

(** *** A sample start-up *)

Definition sample_load (file : string) : error + list ReverseExporter :=
  inr [endpoint_of [backend_a]].

Definition sample_join (contextPath path : string) : string :=
  contextPath +:+ path.

Definition plain_config : AppConfig :=
  mkAppConfig "reverse_exporter.yml" "/ctx" "static" "tcp://0.0.0.0:9998"
    EmptyString "key.pem" EmptyString "info" false.

Definition tls_config : AppConfig :=
  mkAppConfig "reverse_exporter.yml" "/ctx" "static" "unix:///run/re.sock"
    "cert.pem" "key.pem" EmptyString "info" false.

Definition sample_realMain (appConfig : AppConfig) : Termination * list Action :=
  realMain sample_load sample_join id [] (λ _ _, true) (λ _ _, None)
    (λ _, inr "pem") (λ _, true) appConfig (Signal "interrupt").

Definition sample_router : list Route :=
  Eval vm_compute in
    match (sample_realMain plain_config).2 with
    | [_; Serve routes] => routes
    | _ => []
    end.

Lemma plain_config_run :
  sample_realMain plain_config
  = (Exit 0, [System (Listen "tcp" "0.0.0.0:9998"); Serve sample_router]).
Proof. vm_compute. reflexivity. Qed.

Lemma tls_config_started :
  startup sample_load sample_join id [] (λ _ _, true) (λ _ _, None) tls_config
  = inr (sample_router,
         [MkdirAll "/run/re.sock" 448; Remove "/run/re.sock";
          Listen "unix" "/run/re.sock"]).
Proof. vm_compute. reflexivity. Qed.

Lemma endpoints_registered_all_or_nothing_witness :
  ∃ rps, sample_load "reverse_exporter.yml" = inr rps
         ∧ NoDup (Path <$> rps)
         ∧ sample_router = route_of sample_join "/ctx" <$> rps.
Proof.
  destruct (endpoints_registered_all_or_nothing sample_load sample_join id []
              (λ _ _, true) (λ _ _, None) (λ _, inr "pem") (λ _, true)
              plain_config (Signal "interrupt") (Serve sample_router))
    as (rps & _ & Hload & _ & Hnd & _ & Hroutes).
  - fold (sample_realMain plain_config). rewrite plain_config_run. simpl.
    apply list_elem_of_further, list_elem_of_here.
  - exact I.
  - exists rps. split; [exact Hload|]. split; [exact Hnd|exact Hroutes].
Defined.

Lemma serving_mode_witness :
  sample_realMain tls_config
  = (Panic "invalid memory address or nil pointer dereference",
     [System (MkdirAll "/run/re.sock" 448); System (Remove "/run/re.sock");
      System (Listen "unix" "/run/re.sock")]).
Proof.
  refine (proj1 (proj2 (serving_mode sample_load sample_join id []
            (λ _ _, true) (λ _ _, None) (λ _, inr "pem") (λ _, true)
            tls_config (Signal "interrupt") _ _ tls_config_started) _ _) eq_refl);
    discriminate.
Defined.

End Main.

(** ** The subprocess in both workers *)
Module SubprocessFacts.
Import Subprocess.

(** The events that concern the subprocess itself. *)
Definition of_process (e : Event) : bool :=
  match e with
  | EvStdoutPipe | EvStart | EvDecode | EvKill => true
  | _ => false
  end.

Definition process_events (evs : list Event) : list Event :=
  filter (λ e, of_process e = true) evs.

(** What one execution does to the subprocess, by the answers to
    [StdoutPipe] and [Start] alone. *)
Definition discipline (x : Execution) : list Event :=
  match pipeErr x, startErr x with
  | Some _, _ => [EvStdoutPipe]
  | None, Some _ => [EvStdoutPipe; EvStart]
  | None, None => [EvStdoutPipe; EvStart; EvDecode; EvKill]
  end.

(** X10: [doExec] and one turn of the exec-cached worker treat the
    subprocess alike.  When the pipe cannot be opened nothing is
    started; when the start fails nothing is decoded or killed; once
    the script has started its output is decoded and the kill is sent
    right after, exactly once, whatever the decoder and the kill
    answer, also on the turn that ends in a panic. *)
Theorem subprocess_discipline (x : Execution) (w : World) :
  (∃ new, events (DoExec.doExec x w).2 = events w ++ new
          ∧ process_events new = discipline x)
  ∧ (∀ now st,
       ∃ new, events (ExecCachingProxy.execer_iteration now x st w).2
              = events w ++ new
              ∧ process_events new = discipline x).
Proof.
  split.
  - unfold DoExec.doExec, decodeMetrics, discipline.
    destruct x as [[perr|] [serr|] fs [derr|] [kerr|]]; run_M;
      rewrite <- ?app_assoc; simpl; eexists; (split; [reflexivity|]);
      reflexivity.
  - intros now st.
    unfold ExecCachingProxy.execer_iteration, decodeMetrics,
      ExecCachingProxy.close, discipline.
    destruct x as [[perr|] [serr|] fs [derr|] [kerr|]]; run_M;
      try destruct (ExecCachingProxy.rdyCh st);
      try destruct (ExecCachingProxy.resultReady (ExecCachingProxy.proxy st));
      run_M; rewrite <- ?app_assoc; simpl; eexists; (split; [reflexivity|]);
      reflexivity.
Qed.

(** X11: A result of [doExec] is a family list or an error, never both and
    never neither: the error is nil exactly when all four stages went
    through, the list is then the newly allocated one that holds what
    was decoded, and it is the nil slice otherwise. *)
Theorem doExec_result_well_formed (x : Execution) (w w' : World)
    (r : DoExec.execProxyScrapeResult) :
  DoExec.doExec x w = (Returned r, w') →
  (DoExec.err r = None ↔ succeeds x)
  ∧ (DoExec.err r = None →
     DoExec.mfs r = SliceAt (length (heap w))
     ∧ contents w' (DoExec.mfs r) = decoded x)
  ∧ (DoExec.err r ≠ None → DoExec.mfs r = SliceNil).
Proof.
  unfold DoExec.doExec, decodeMetrics, succeeds.
  destruct x as [[perr|] [serr|] fs [derr|] [kerr|]]; run_M;
    intros [= <- <-]; simpl; (split; [naive_solver|]); (split; [|done]);
    try done.
  intros _. split; [done|]. by rewrite lookup_app_r, Nat.sub_diag.
Qed.

Lemma doExec_result_well_formed_witness :
  ∃ r w', DoExec.doExec (good [mkFamily "x" ["x 1"]]) DoExec.emptyWorld
          = (Returned r, w')
          ∧ contents w' (DoExec.mfs r) = [mkFamily "x" ["x 1"]].
Proof.
  eexists _, _. split; [reflexivity|].
  exact (proj2 (proj1 (proj2 (doExec_result_well_formed
           (good [mkFamily "x" ["x 1"]]) DoExec.emptyWorld _ _ eq_refl)) eq_refl)).
Defined.

End SubprocessFacts.

(** ** [execProxy]: what every reachable state satisfies *)
Module ExecProxyFacts.
Import Subprocess DoExec ExecProxy.

(** *** The waiter set *)

(** X12: The waiter set is the set of calls that wait.  A call between its
    registration and its return is in the set; and whenever the worker
    is not in the middle of a dispatch, the set holds nothing else: no
    channel of a call that has returned stays behind. *)
Theorem waiter_set_is_the_waiting_calls dl s :
  reachable dl s →
  (∀ i p, pc_of s i = Some p → registered p → i ∈ waitingScrapes s)
  ∧ (mutexHeld s = false →
     ∀ i, i ∈ waitingScrapes s → ∃ p, pc_of s i = Some p ∧ registered p).
Proof.
  intros Hreach. pose proof (invariant_reachable dl s Hreach) as Hinv. split.
  - apply (inv_registered _ _ Hinv).
  - unfold mutexHeld. intros Hfree i Hi.
    destruct (inv_waiting _ _ Hinv i Hi) as (p & Hp & [Hreg|(r & sent & Hd & _)]).
    + by exists p.
    + by rewrite Hd in Hfree.
Qed.

(** *** Every schedule is short *)

Lemma measure_init dl : measure (newExecProxy dl) = 2 + 11 * length dl.
Proof.
  unfold measure, newExecProxy. simpl.
  assert (sum_list_with (λ c, pc_weight (pc c)) (mkCall CStart <$> dl)
          = 11 * length dl) as ->; [|lia].
  induction dl as [|d dl IH]; [done|].
  rewrite fmap_cons. simpl. rewrite IH. lia.
Qed.

(** X13: The worker never spins: with [n] calls of [Scrape], no schedule
    has more than [2 + 11 n] steps, whatever the scripts answer and
    whenever the contexts fire. *)
Theorem schedules_are_bounded dl ls s :
  run ls (newExecProxy dl) = Some s → length ls ≤ 2 + 11 * length dl.
Proof.
  intros Hrun. apply run_length in Hrun. rewrite measure_init in Hrun. lia.
Qed.

(** *** What [Scrape] returns *)

Definition allocated (w : World) (sl : slice) : Prop :=
  ∃ l, sl = SliceAt l ∧ l < length (heap w).

(** What holds of the result structs and of the values returned. *)
Record returns_invariant (dl : list bool) (s : State) : Prop := mkReturns {
  ri_results :
    ∀ r res, results s !! r = Some res →
      (err res = None ↔ mfs res ≠ SliceNil)
      ∧ (err res = None → allocated (world s) (mfs res));
  ri_returned :
    ∀ i m e, pc_of s i = Some (CReturned m e) →
      (dl !! i = Some true ∧ CReturned m e = timed_out)
      ∨ ∃ r, results s !! r = Some (mkResult m e)
}.

Lemma doExec_shape x w o w' :
  doExec x w = (o, w') →
  length (heap w) ≤ length (heap w')
  ∧ ∀ res, o = Returned res →
      (err res = None ↔ mfs res ≠ SliceNil)
      ∧ (err res = None → allocated w' (mfs res)).
Proof.
  unfold doExec, decodeMetrics, allocated.
  destruct x as [[perr|] [serr|] fs [derr|] [kerr|]]; run_M;
    intros [= <- <-]; simpl; rewrite ?length_app; simpl;
    (split; [lia|]); intros res Hres; simplify_eq/=;
    (split; [done|]); try done.
  intros _. eexists. split; [done|]. rewrite ?length_app. simpl. lia.
Qed.

Lemma step_heap l s s' :
  exec_step l s = Some s' →
  length (heap (world s)) ≤ length (heap (world s')).
Proof.
  intros Hstep. step_inv Hstep; norm; try done;
    match goal with
    | H : doExec _ _ = _ |- _ => by apply doExec_shape in H as [? _]
    end.
Qed.

Lemma returns_invariant_init dl : returns_invariant dl (newExecProxy dl).
Proof.
  split; simpl.
  - intros r res Hr. by rewrite lookup_nil in Hr.
  - intros i m e Hp. unfold pc_of in Hp. simpl in Hp.
    rewrite list_lookup_fmap in Hp. by destruct (dl !! i).
Qed.

Lemma step_results_grow l s s' :
  exec_step l s = Some s' →
  results s' = results s
  ∨ ∃ x res, doExec x (world s) = (Returned res, world s')
             ∧ results s' = results s ++ [res].
Proof.
  intros Hstep. step_inv Hstep; norm; auto. right. eauto.
Qed.

Lemma step_returns_results dl l s s' :
  returns_invariant dl s → exec_step l s = Some s' →
  ∀ r res, results s' !! r = Some res →
    (err res = None ↔ mfs res ≠ SliceNil)
    ∧ (err res = None → allocated (world s') (mfs res)).
Proof.
  intros [Hres _] Hstep r res Hr.
  pose proof (step_heap l s s' Hstep) as Hheap.
  assert (∀ res0, results s !! r = Some res0 →
    (err res0 = None ↔ mfs res0 ≠ SliceNil)
    ∧ (err res0 = None → allocated (world s') (mfs res0))) as Hold.
  { intros res0 Hr0. destruct (Hres r res0 Hr0) as [Hwf Hal]. split; [done|].
    intros He. destruct (Hal He) as (l0 & -> & Hl0). exists l0. split; [done|lia]. }
  destruct (step_results_grow l s s' Hstep) as [Heq|(x & res1 & Hexec & Heq)];
    rewrite Heq in Hr; [by apply Hold|].
  apply lookup_app_Some in Hr as [Hr|[_ Hr]]; [by apply Hold|].
  apply list_lookup_singleton_Some in Hr as [_ <-].
  by apply (doExec_shape _ _ _ _ Hexec).
Qed.

Lemma step_returns_returned dl l s s' :
  invariant dl s → returns_invariant dl s → exec_step l s = Some s' →
  ∀ i m e, pc_of s' i = Some (CReturned m e) →
    (dl !! i = Some true ∧ CReturned m e = timed_out)
    ∨ ∃ r, results s' !! r = Some (mkResult m e).
Proof.
  intros Hinv [_ Hret] Hstep i m e.
  pose proof (inv_cancel _ _ Hinv) as Hcancel.
  pose proof (inv_deadlines _ _ Hinv) as Hdl.
  assert (∀ j, pc_of s j = Some (CReturned m e) →
    (dl !! j = Some true ∧ CReturned m e = timed_out)
    ∨ ∃ r, results s' !! r = Some (mkResult m e)) as Hold.
  { intros j Hj. destruct (Hret j m e Hj) as [?|[r Hr]]; [by left|]. right.
    exists r. by eapply step_results_stable. }
  clear Hret. step_inv Hstep; norm; rewrite ?pc_alter; try (by apply Hold).
  - (* LSend *)
    destruct (decide (ch = i)) as [->|Hne]; [|by apply Hold].
    destruct (calls s !! i); simplify_eq/=. intros [= <- <-]. right.
    match goal with H : results s !! ?r = Some ?res |- _ =>
      exists r; rewrite H; by destruct res end.
  - destruct (decide (i0 = i)) as [->|Hne]; [|by apply Hold].
    by destruct (calls s !! i).
  - destruct (decide (i0 = i)) as [->|Hne]; [|by apply Hold].
    by destruct (calls s !! i).
  - destruct (decide (i0 = i)) as [->|Hne]; [|by apply Hold].
    by destruct (calls s !! i).
  - destruct (decide (i0 = i)) as [->|Hne]; [|by apply Hold].
    by destruct (calls s !! i).
  - (* LCancel *)
    destruct (decide (i0 = i)) as [->|Hne]; [|by apply Hold].
    destruct (calls s !! i) as [[p d]|] eqn:Hc; simplify_eq/=.
    intros [= <- <-]. left. split; [|done].
    rewrite list_lookup_fmap, Hc. simpl. f_equal. by eapply Hcancel.
Qed.

Lemma returns_invariant_reachable dl s :
  reachable dl s → returns_invariant dl s.
Proof.
  unfold reachable. revert s. apply rtc_ind_r.
  - apply returns_invariant_init.
  - intros s1 s2 Hrun [l Hstep] IH. split.
    + by eapply step_returns_results.
    + eapply step_returns_returned; [|done..].
      by apply invariant_reachable.
Qed.

(** X14: A call of [Scrape] that has returned holds the fields of a result
    struct that some execution produced, or the timeout error of its
    own context, which only a call with a deadline can hold.  It never
    returns both a family list and an error, nor neither: the error is
    nil exactly when the list is not, and the list is then one that the
    decoder allocated. *)
Theorem scrape_returns_a_result_or_its_timeout dl s i m e :
  reachable dl s → pc_of s i = Some (CReturned m e) →
  ((dl !! i = Some true ∧ m = SliceNil
    ∧ e = Some ErrScrapeTimeoutBeforeExecFinished)
   ∨ ∃ r, results s !! r = Some (mkResult m e))
  ∧ (e = None ↔ m ≠ SliceNil)
  ∧ (e = None → allocated (world s) m).
Proof.
  intros Hreach Hp.
  destruct (returns_invariant_reachable dl s Hreach) as [Hres Hret].
  destruct (Hret i m e Hp) as [[Hd Hto]|[r Hr]].
  - injection Hto as -> ->. split; [by left|]. done.
  - destruct (Hres r _ Hr) as [Hwf Hal]. simpl in *. split; [|done].
    right. by exists r.
Qed.

Lemma run_two_served :
  run (wake_two ++ serve_two) (newExecProxy [false; false]) = Some two_served.
Proof. vm_compute. reflexivity. Qed.

Lemma scrape_returns_a_result_or_its_timeout_witness :
  allocated (world two_served) (SliceAt 0).
Proof.
  exact (proj2 (proj2 (scrape_returns_a_result_or_its_timeout
           [false; false] two_served 1 (SliceAt 0) None
           (run_rtc _ _ _ run_two_served) eq_refl)) eq_refl).
Defined.

Lemma waiter_set_is_the_waiting_calls_witness :
  ∃ p, pc_of two_woken 1 = Some p ∧ registered p.
Proof.
  exact (proj2 (waiter_set_is_the_waiting_calls [false; false] two_woken
           (run_rtc _ _ _ run_wake_two)) eq_refl 1 (proj2 two_woken_waiting)).
Defined.

Lemma schedules_are_bounded_witness : length (wake_two ++ serve_two) ≤ 24.
Proof.
  exact (schedules_are_bounded [false; false] (wake_two ++ serve_two)
           two_served run_two_served).
Defined.

(** *** The script runs on demand only *)

(** The call has sent its signal. *)
Definition signalled (p : callPc) : nat :=
  match p with
  | CStart | CNudge => 0
  | CSelect | CCancel | CReturned _ _ => 1
  end.

(** The worker holds a request that it has not yet turned into an
    execution. *)
Definition pending (w : workerPc) : nat :=
  match w with
  | WWoken | WExec => 1
  | _ => 0
  end.

Definition signals (s : State) : nat :=
  sum_list_with (λ c, signalled (pc c)) (calls s).

Lemma signals_alter (cs : list call) i c p :
  cs !! i = Some c →
  sum_list_with (λ c, signalled (pc c)) (alter (λ c, mkCall p (deadline c)) i cs)
  + signalled (pc c)
  = sum_list_with (λ c, signalled (pc c)) cs + signalled p.
Proof.
  revert i. induction cs as [|c0 cs IH]; intros [|i]; simpl; try done.
  - intros [= ->]. lia.
  - intros Hi. specialize (IH i Hi). unfold alter in *. lia.
Qed.

Lemma signals_bound (cs : list call) :
  sum_list_with (λ c, signalled (pc c)) cs ≤ length cs.
Proof.
  induction cs as [|[p d] cs IH]; simpl; [done|]. destruct p; simpl; lia.
Qed.

Lemma step_signals l s s' :
  exec_step l s = Some s' →
  length (results s) + pending (worker s) ≤ signals s →
  length (results s') + pending (worker s') ≤ signals s'.
Proof.
  intros Hstep. unfold signals.
  step_inv Hstep; norm; rewrite ?length_app; simpl;
    repeat match goal with
           | H : worker s = _ |- _ => rewrite H; simpl
           end;
    try lia;
    match goal with
    | H : pc <$> calls s !! ?i = Some ?p |- context [alter (λ c, mkCall ?q _) ?i _] =>
        destruct (calls s !! i) as [c|] eqn:Hc; [|done];
        pose proof (signals_alter (calls s) i c q Hc) as Ha;
        simpl in H; injection H as H; rewrite H in Ha; simpl in Ha
    | H : calls s !! ?i = Some ?c |- context [alter (λ c, mkCall ?q _) ?i _] =>
        pose proof (signals_alter (calls s) i c q H) as Ha; simpl in Ha
    end;
    try lia.
  all: destruct (worker s); simpl in *; try done; lia.
Qed.

(** X15: The script runs on demand only: there are never more executions
    than calls of [Scrape] that have sent their signal, so never more
    than calls made, and none before the first call. *)
Theorem executions_bounded_by_signals dl s :
  reachable dl s →
  length (results s) + pending (worker s) ≤ signals s
  ∧ signals s ≤ length dl.
Proof.
  intros Hreach. split.
  - revert s Hreach. unfold reachable. apply rtc_ind_r.
    + unfold signals. simpl. lia.
    + intros s1 s2 _ [l Hstep] IH. by eapply step_signals.
  - unfold signals. rewrite <- (inv_deadlines _ _ (invariant_reachable dl s Hreach)).
    rewrite length_fmap. apply signals_bound.
Qed.

Lemma executions_bounded_by_signals_witness :
  length (results two_served) ≤ 2.
Proof.
  destruct (executions_bounded_by_signals [false; false] two_served
              (run_rtc _ _ _ run_two_served)) as [Hexec Hsig].
  simpl in *. lia.
Defined.

End ExecProxyFacts.

(** ** [execCachingProxy.execer]: the loop over many turns *)
Module ExecCachingFacts.
Import Subprocess ExecCachingProxy.

(** The kill fails although the script started and its output was
    decoded. *)
Definition kill_fails_after_decode (x : Execution) : Prop :=
  pipeErr x = None ∧ startErr x = None ∧ decodeErr x = None ∧ killErr x ≠ None.

#[global] Instance kill_fails_after_decode_dec x :
  Decision (kill_fails_after_decode x).
Proof. unfold kill_fails_after_decode. apply _. Defined.

Definition nil_dereference : string :=
  "invalid memory address or nil pointer dereference".

(** A slice that points into the heap points at a list that is there. *)
Definition valid (w : World) (sl : slice) : Prop :=
  match sl with
  | SliceAt l => l < length (heap w)
  | _ => True
  end.

(** The last execution of a stretch that went through, with its time. *)
Definition last_success (runs : list (nat * Execution)) : option (nat * Execution) :=
  last (filter (λ r, succeeds r.2) runs).

Lemma execer_iteration_outcome now x st w :
  consistent st →
  (kill_fails_after_decode x →
   (execer_iteration now x st w).1 = Panicked nil_dereference)
  ∧ (¬ kill_fails_after_decode x →
     ∃ st', (execer_iteration now x st w).1 = Returned st'
            ∧ lastExec (proxy st') = now).
Proof.
  unfold consistent, kill_fails_after_decode, execer_iteration, decodeMetrics, close.
  destruct st as [[le lr rdy] ch]; simpl. intros ->.
  destruct x as [[perr|] [serr|] fs [derr|] [kerr|]]; simpl; run_M;
    destruct rdy; run_M; split; try naive_solver.
Qed.

Lemma execer_iteration_extends now x st w :
  ∃ ext, heap (execer_iteration now x st w).2 = heap w ++ ext.
Proof.
  unfold execer_iteration, decodeMetrics, close.
  destruct x as [[perr|] [serr|] fs [derr|] [kerr|]]; run_M;
    destruct (rdyCh st), (resultReady (proxy st)); run_M;
    first [by exists [] ; rewrite app_nil_r | by eexists].
Qed.

Lemma contents_extends w w' ext sl :
  heap w' = heap w ++ ext → valid w sl → contents w' sl = contents w sl.
Proof.
  intros Hext Hv. destruct sl as [| |l]; simpl in *; [done..|].
  by rewrite Hext, lookup_app_l.
Qed.

(** *** When the worker dies *)

Lemma execer_outcome runs st w :
  consistent st →
  (Exists (λ r, kill_fails_after_decode r.2) runs →
   (execer runs st w).1 = Panicked nil_dereference)
  ∧ (¬ Exists (λ r, kill_fails_after_decode r.2) runs →
     ∃ st', (execer runs st w).1 = Returned st').
Proof.
  revert st w. induction runs as [|[now x] runs IH]; intros st w Hc; simpl.
  - split; [by intros ?%Exists_nil|]. intros _. by eexists.
  - destruct (execer_iteration_outcome now x st w Hc) as [Hbad Hgood].
    unfold mbind, M_bind.
    destruct (decide (kill_fails_after_decode x)) as [Hx|Hx].
    + specialize (Hbad Hx).
      destruct (execer_iteration now x st w) as [[st1|msg] w1]; [done|].
      simpl in *. injection Hbad as ->. split; [done|].
      intros Hno. exfalso. apply Hno. by apply Exists_cons_hd.
    + destruct (Hgood Hx) as (st1 & Hst1 & _).
      pose proof (execer_iteration_consistent now x st w st1 Hc Hst1) as Hc1.
      destruct (execer_iteration now x st w) as [[st1'|msg] w1]; [|done].
      simpl in Hst1. injection Hst1 as ->.
      destruct (IH st1 w1 Hc1) as [IHbad IHgood]. split.
      * intros Hex. apply Exists_cons in Hex as [Hex|Hex]; [done|]. by apply IHbad.
      * intros Hno. apply IHgood. intros Hex. apply Hno. by apply Exists_cons_tl.
Qed.

(** X16: The exec-cached worker dies in one way only.  Started by
    [newExecCachingProxy], the loop panics exactly when some turn has
    its kill fail after a good decode, and then with a nil dereference;
    it never panics by closing the readiness channel twice, and no
    failure of the pipe, of the start or of the decoder stops it. *)
Theorem worker_dies_only_on_failed_kill runs w :
  ((∃ msg, (execer runs newExecCachingProxy w).1 = Panicked msg)
   ↔ Exists (λ r, kill_fails_after_decode r.2) runs)
  ∧ (∀ msg, (execer runs newExecCachingProxy w).1 = Panicked msg →
       msg = nil_dereference).
Proof.
  destruct (execer_outcome runs newExecCachingProxy w eq_refl) as [Hbad Hgood].
  destruct (decide (Exists (λ r, kill_fails_after_decode r.2) runs)) as [Hex|Hno].
  - rewrite (Hbad Hex). split.
    + split; [done|]. intros _. by eexists.
    + by intros msg [= <-].
  - destruct (Hgood Hno) as [st' ->]. split.
    + split; [by intros [msg ?]|done].
    + by intros msg.
Qed.

(** *** What the cache holds *)

Lemma last_success_cons now x runs :
  last_success ((now, x) :: runs)
  = match last_success runs with
    | Some r => Some r
    | None => if decide (succeeds x) then Some (now, x) else None
    end.
Proof.
  unfold last_success. rewrite filter_cons. simpl.
  destruct (decide (succeeds x)) as [Hx|Hx]; [|by destruct (last _)].
  destruct (filter _ runs) as [|r rs] eqn:Hf; [done|].
  rewrite last_cons. by destruct (last (r :: rs)) eqn:Hl.
Qed.

Lemma execer_cache runs st w st' w' :
  consistent st → valid w (lastResult (proxy st)) →
  execer runs st w = (Returned st', w') →
  contents w' (lastResult (proxy st'))
  = match last_success runs with
    | Some r => decoded r.2
    | None => contents w (lastResult (proxy st))
    end
  ∧ lastExec (proxy st') = from_option fst (lastExec (proxy st)) (last runs).
Proof.
  revert st w. induction runs as [|[now x] runs IH]; intros st w Hc Hv; simpl.
  - by intros [= <- <-].
  - unfold mbind, M_bind.
    destruct (execer_iteration now x st w) as [[st1|msg] w1] eqn:Hit; [|done].
    intros Hrest. rewrite last_success_cons.
    assert (consistent st1) as Hc1.
    { eapply (execer_iteration_consistent now x st w); [done|]. by rewrite Hit. }
    destruct (execer_iteration_extends now x st w) as [ext Hext].
    rewrite Hit in Hext. simpl in Hext.
    assert (lastExec (proxy st1) = now) as Hnow.
    { destruct (decide (kill_fails_after_decode x)) as [Hx|Hx].
      - destruct (execer_iteration_outcome now x st w Hc) as [Hbad _].
        rewrite Hit in Hbad. by specialize (Hbad Hx).
      - destruct (execer_iteration_outcome now x st w Hc) as [_ Hgood].
        destruct (Hgood Hx) as (st1' & Hst1 & Hle). rewrite Hit in Hst1.
        by injection Hst1 as <-. }
    destruct (decide (succeeds x)) as [Hx|Hx].
    + rewrite execer_iteration_success in Hit by done. injection Hit as <- <-.
      edestruct IH as [Hcache Htime]; [exact Hc1| |exact Hrest|].
      { unfold valid. simpl. rewrite length_app. simpl. lia. }
      rewrite Hcache, Htime. split.
      * destruct (last_success runs); [done|]. simpl.
        by rewrite lookup_app_r, Nat.sub_diag.
      * rewrite last_cons. by destruct (last runs).
    + destruct (execer_iteration_failure now x st w Hx) as (new & _ & _ & Hst).
      rewrite Hit in Hst. specialize (Hst st1 eq_refl). subst st1. simpl in *.
      destruct (IH _ w1 Hc1) as [Hcache Htime]; [|done|].
      { simpl. destruct (lastResult (proxy st)); simpl in *; try done.
        rewrite Hext, length_app. lia. }
      rewrite Hcache, Htime. simpl. split.
      * destruct (last_success runs); [done|].
        by apply (contents_extends w w1 ext).
      * rewrite last_cons. by destruct (last runs).
Qed.

(** X17: After any stretch of the loop that the worker survives, the cache
    holds what the last successful execution of the stretch printed,
    and the empty list if there was none: failed executions in between
    or afterwards do not disturb it.  [lastExec] is the time of the last
    turn, successful or not. *)
Theorem cache_holds_last_success runs w st' w' :
  execer runs newExecCachingProxy w = (Returned st', w') →
  contents w' (lastResult (proxy st'))
  = from_option (λ r, decoded r.2) [] (last_success runs)
  ∧ lastExec (proxy st') = from_option fst 0 (last runs).
Proof.
  intros Hrun.
  destruct (execer_cache runs newExecCachingProxy w st' w' eq_refl I Hrun)
    as [Hcache Htime].
  split; [|done]. rewrite Hcache. by destruct (last_success runs).
Qed.

Definition pipe_broken : Execution :=
  mkExecution (Some (OSError "pipe")) None [] None None.

Definition three_turns : list (nat * Execution) :=
  [(1, pipe_broken); (2, good one_family); (3, pipe_broken)].

Definition after_three_turns : Outcome execerState * World :=
  Eval vm_compute in execer three_turns newExecCachingProxy (mkWorld [] []).

Lemma run_three_turns :
  execer three_turns newExecCachingProxy (mkWorld [] [])
  = (Returned (mkExecer (mkCaching 3 (SliceAt 0) true) false),
     after_three_turns.2).
Proof. vm_compute. reflexivity. Qed.

Lemma cache_holds_last_success_witness :
  contents after_three_turns.2 (SliceAt 0) = one_family
  ∧ lastExec (mkCaching 3 (SliceAt 0) true) = 3.
Proof.
  exact (cache_holds_last_success three_turns (mkWorld [] []) _ _
           run_three_turns).
Defined.

End ExecCachingFacts.
